(** * RegionSet: a shallow embedding of regionset.go

    The Go package [text] keeps a set of regions (selections and cursors of
    an editor buffer) in a slice, merges overlapping regions and tells the
    registered callbacks about every change.  This file embeds the code of
    regionset.go function by function and states the properties of the
    specification about it.

    Conventions of the embedding.
    - Go's [int] indices and coordinates are [Z]; slice lengths are far
      below the word size, so index arithmetic never wraps.
    - A slice is a [list]; an index or slice expression out of range panics,
      which is the [Panics] outcome.
    - A method that changes the set takes the receiver and the trace of
      callback calls and returns both as it leaves them; a query returns its
      answer only.
    - Callbacks are opaque values; calling one is recorded in a trace.  What
      a callback does to the set when it calls back into it is not part of
      the model.
    - The mutex orders whole operations; one operation at a time is modelled
      and the lock itself is left out. *)

From stdpp Require Import gmap strings list fin_maps.
From Stdlib Require Import ZArith Lia.

Local Open Scope Z_scope.

(** ** Outcomes of Go code: a value, a panic, or a loop that did not end
    within the fuel the model gave it. *)

Inductive outcome (A : Type) : Type :=
| Returns (a : A)
| Panics
| Diverges.
Arguments Returns {A} a.
Arguments Panics {A}.
Arguments Diverges {A}.

#[global] Instance outcome_ret : MRet outcome := @Returns.
#[global] Instance outcome_bind : MBind outcome := λ A B f m,
  match m with
  | Returns a => f a
  | Panics => Panics
  | Diverges => Diverges
  end.

(** ** Slices *)

(** [len(s)] *)
Definition len {A} (s : list A) : Z := Z.of_nat (length s).

(** [s[i]]: panics unless [0 <= i < len(s)]. *)
Definition index {A} (s : list A) (i : Z) : outcome A :=
  if decide (0 ≤ i < len s) then
    match s !! Z.to_nat i with
    | Some x => Returns x
    | None => Panics
    end
  else Panics.

(** [s[i] = x] for an index already known to be in range. *)
Definition store {A} (s : list A) (i : Z) (x : A) : list A :=
  <[Z.to_nat i := x]> s.

(** [copy(s[d:], s[lo:hi])]: the two slice expressions panic unless
    [0 <= d <= len(s)] and [0 <= lo <= hi <= cap(s)]; then
    [min(len(s) - d, hi - lo)] elements move, the source being read before
    it is overwritten.  The model has no capacity and asks for
    [hi <= len(s)]; [merge] never asks for more. *)
Definition slice_copy {A} (s : list A) (d lo hi : Z) : outcome (list A) :=
  if decide (0 ≤ d ≤ len s ∧ 0 ≤ lo ≤ hi ∧ hi ≤ len s) then
    let src := take (Z.to_nat (hi - lo)) (drop (Z.to_nat lo) s) in
    let n := Z.to_nat (Z.min (len s - d) (hi - lo)) in
    Returns (take (Z.to_nat d) s ++ take n src ++ drop (Z.to_nat d + n) s)
  else Panics.

(** [s[:n]]: panics unless [0 <= n <= cap(s)]; [merge] only shrinks. *)
Definition slice_to {A} (s : list A) (n : Z) : outcome (list A) :=
  if decide (0 ≤ n ≤ len s) then Returns (take (Z.to_nat n) s) else Panics.

(** ** The Region interface *)

(** Modelled from the spec: the [Region] value type and its methods live in
    region.go, which is not among the sources.  regionset.go uses exactly the
    methods below (and [==]), so the set is embedded over any type that has
    them.  [Region_Adjust] is the pointer method [Adjust], returning the
    adjusted region. *)
Class RegionOps (Region : Type) := {
  Region_Begin : Region → Z;
  Region_End : Region → Z;
  Region_Contains : Region → Z → bool;
  Region_Covers : Region → Region → bool;
  Region_Intersects : Region → Region → bool;
  Region_Empty : Region → bool;
  Region_Cover : Region → Region → Region;
  Region_Cut : Region → Region → list Region;
  Region_Adjust : Region → Z → Z → Region;
}.

Section RegionSet.

Context {Region : Type} `{EqDecision Region} `{RegionOps Region}.
Context {Callback : Type}.

(** [type RegionSet struct]: the slice and the callbacks ([nil] and the empty
    map behave alike in every function below). *)
Record RegionSet := mkRegionSet {
  regions : list Region;
  onChangeCallbacks : gmap string Callback;
}.

(** The callbacks called so far, oldest first. *)
Definition Trace := list (string * Callback).

(** The zero value [RegionSet{}]. *)
Definition zero : RegionSet := mkRegionSet [] ∅.

Definition set_regions (r : RegionSet) (rs : list Region) : RegionSet :=
  mkRegionSet rs (onChangeCallbacks r).

(** [onChange]: every registered callback is called.  Go ranges over the map
    in an unspecified order; the model takes the order of [map_to_list]. *)
Definition onChange (r : RegionSet) (tr : Trace) : Trace :=
  tr ++ map_to_list (onChangeCallbacks r).

(** The test of [overlaps] on one stored region. *)
Definition overlapping (reference x : Region) : bool :=
  bool_decide (reference = x) || Region_Intersects reference x
  || Region_Covers reference x.

(** [overlaps]: the loop [for i := start; i < end; i++], [n] iterations left. *)
Fixpoint overlaps_loop (rs : list Region) (reference : Region)
    (n : nat) (i : Z) (ret : list Z) : outcome (list Z) :=
  match n with
  | O => Returns ret
  | S n' =>
      x ← index rs i;
      overlaps_loop rs reference n' (i + 1)
        (if overlapping reference x then ret ++ [i] else ret)
  end.

Definition overlaps (rs : list Region) (reference : Region)
    (start end_ : Z) : outcome (list Z) :=
  overlaps_loop rs reference (Z.to_nat (end_ - start)) start [].

(** [merge], first loop: cover every listed region into [reference]. *)
Fixpoint merge_cover (reference : Z) (todo : list Z) (rs : list Region)
    : outcome (list Region) :=
  match todo with
  | [] => Returns rs
  | j :: todo' =>
      a ← index rs reference;
      b ← index rs j;
      merge_cover reference todo' (store rs reference (Region_Cover a b))
  end.

(** [merge], second loop: [todo] is what is left of [range merge], [i] its
    index and [adj] the count of removals so far. *)
Fixpoint merge_shift (merge : list Z) (l : Z) (todo : list Z) (i adj : Z)
    (rs : list Region) : outcome (list Region) :=
  match todo with
  | [] => Returns rs
  | j1 :: todo' =>
      let j2 := if decide (i < l)
                then nth (Z.to_nat (i + 1)) merge 0 - 1
                else len rs - adj in
      rs' ← (if decide (j2 > 0 ∧ j1 + 1 ≤ j2)
             then slice_copy rs (j1 - adj) (j1 + 1) j2
             else Returns rs);
      merge_shift merge l todo' (i + 1) (adj + 1) rs'
  end.

Definition merge (reference : Z) (merge : list Z) (rs : list Region)
    : outcome (list Region) :=
  rs1 ← merge_cover reference merge rs;
  rs2 ← merge_shift merge (len merge - 1) merge 0 0 rs1;
  slice_to rs2 (len rs2 - len merge).

(** [flush], the loop [for i := 1; i < len(r.regions); i++]. *)
Fixpoint flush_loop (fuel : nat) (i : Z) (rs : list Region)
    : outcome (list Region) :=
  if decide (i < len rs) then
    match fuel with
    | O => Diverges
    | S fuel' =>
        x ← index rs i;
        ov ← overlaps rs x 0 i;
        match ov with
        | [] => flush_loop fuel' (i + 1) rs
        | ref :: ov' =>
            rs' ← merge ref (ov' ++ [i]) rs;
            flush_loop fuel' (i + 1) rs'
        end
    end
  else Returns rs.

(** [flush]: the loop, then the callbacks (the lock is given up around
    them).  The loop counter only grows and the slice only shrinks, so
    [length] iterations are enough fuel. *)
Definition flush (r : RegionSet) (tr : Trace) : outcome (RegionSet * Trace) :=
  rs ← flush_loop (length (regions r)) 1 (regions r);
  mret (set_regions r rs, onChange (set_regions r rs) tr).

(** [Adjust] *)
Definition Adjust (position delta : Z) (r : RegionSet) (tr : Trace)
    : outcome (RegionSet * Trace) :=
  flush
    (set_regions r ((λ x, Region_Adjust x position delta) <$> regions r)) tr.

(** [Add], the locked closure. *)
Definition Add_locked (r2 : Region) (rs : list Region)
    : outcome (list Region) :=
  ov ← overlaps rs r2 0 (len rs);
  let rs1 := rs ++ [r2] in
  match ov with
  | [] => Returns rs1
  | ref :: ov' => merge ref (ov' ++ [len rs1 - 1]) rs1
  end.

(** [Add] *)
Definition Add (r2 : Region) (r : RegionSet) (tr : Trace)
    : outcome (RegionSet * Trace) :=
  rs ← Add_locked r2 (regions r);
  mret (set_regions r rs, onChange (set_regions r rs) tr).

(** [Clear] *)
Definition Clear (r : RegionSet) (tr : Trace) : outcome (RegionSet * Trace) :=
  flush (set_regions r (take 0 (regions r))) tr.

(** [Get] *)
Definition Get (r : RegionSet) (i : Z) : outcome Region :=
  index (regions r) i.

(** [Len] *)
Definition Len (r : RegionSet) : Z := len (regions r).

(** [Regions]: a copy of the slice. *)
Definition Regions (r : RegionSet) : list Region := regions r.

(** [AddAll], the loop [for _, r2 := range rs]. *)
Fixpoint AddAll_loop (todo : list Region) (start : Z) (rs : list Region)
    : outcome (list Region) :=
  match todo with
  | [] => Returns rs
  | r2 :: todo' =>
      ov ← overlaps rs r2 0 start;
      match ov with
      | [] => AddAll_loop todo' start rs
      | ref :: ov' =>
          let ov2 := ov' ++ [len rs - 1] in
          rs' ← merge ref ov2 rs;
          AddAll_loop todo' (start - len ov2) rs'
      end
  end.

(** [AddAll]: [rr] is a set of its own without callbacks; its [flush] works
    on the caller's slice. *)
Definition AddAll (rs : list Region) (r : RegionSet) (tr : Trace)
    : outcome (RegionSet * Trace) :=
  '(rr, tr1) ← flush (mkRegionSet rs ∅) tr;
  let rs1 := Regions rr in
  let start := len (regions r) in
  rs2 ← AddAll_loop rs1 start (regions r ++ rs1);
  mret (set_regions r rs2, onChange (set_regions r rs2) tr1).

(** [Contains] *)
Definition Contains (r : RegionSet) (r2 : Region) : bool :=
  existsb
    (λ x, bool_decide (x = r2)
          || (Region_Contains x (Region_Begin r2)
              && Region_Contains x (Region_End r2)))
    (regions r).

(** [HasNonEmpty] *)
Definition HasNonEmpty (r : RegionSet) : bool :=
  existsb (λ x, negb (Region_Empty x)) (regions r).

(** [HasEmpty] *)
Definition HasEmpty (r : RegionSet) : bool :=
  existsb Region_Empty (regions r).

(** [Cut], the inner loop [for _, xor := range r.regions[i].Cut(r2)]. *)
Fixpoint Cut_inner (xors : list Region) (ret : RegionSet) (tr : Trace)
    : outcome (RegionSet * Trace) :=
  match xors with
  | [] => Returns (ret, tr)
  | xor :: xors' =>
      if Region_Empty xor then Cut_inner xors' ret tr
      else '(ret', tr') ← Add xor ret tr; Cut_inner xors' ret' tr'
  end.

(** [Cut], the outer loop over the stored regions. *)
Fixpoint Cut_outer (todo : list Region) (r2 : Region) (ret : RegionSet)
    (tr : Trace) : outcome (RegionSet * Trace) :=
  match todo with
  | [] => Returns (ret, tr)
  | x :: todo' =>
      '(ret', tr') ← Cut_inner (Region_Cut x r2) ret tr;
      Cut_outer todo' r2 ret' tr'
  end.

(** [Cut]: the new set, and the receiver as the call leaves it. *)
Definition Cut (r2 : Region) (r : RegionSet) (tr : Trace)
    : outcome (RegionSet * RegionSet * Trace) :=
  '(ret, tr') ← Cut_outer (regions r) r2 zero tr;
  mret (ret, r, tr').

(** [Subtract] *)
Definition Subtract (r2 : Region) (r : RegionSet) (tr : Trace)
    : outcome (RegionSet * Trace) :=
  '(r3, r', tr') ← Cut r2 r tr;
  mret (set_regions r' (regions r3), onChange (set_regions r' (regions r3)) tr').

(** [AddOnChange] *)
Definition AddOnChange (key : string) (cb : Callback) (r : RegionSet)
    : RegionSet :=
  mkRegionSet (regions r) (<[key := cb]> (onChangeCallbacks r)).

(** [ClearOnChange] *)
Definition ClearOnChange (key : string) (r : RegionSet) : RegionSet :=
  mkRegionSet (regions r) (delete key (onChangeCallbacks r)).

(** ** Sequences of operations *)

(** The operations of [ops], one after the other, on one set. *)
Fixpoint run (ops : list (RegionSet → Trace → outcome (RegionSet * Trace)))
    (r : RegionSet) (tr : Trace) : outcome (RegionSet * Trace) :=
  match ops with
  | [] => Returns (r, tr)
  | op :: ops' => '(r', tr') ← op r tr; run ops' r' tr'
  end.

(** The stored sequence an outcome ends with. *)
Definition stored (o : outcome (RegionSet * Trace)) : outcome (list Region) :=
  '(r, _) ← o; mret (regions r).

(** ** Notions of the specification *)

(** What [Cut] is said to insert: every remainder of cutting [r2] out of a
    stored region that is not empty, in the order of the stored regions. *)
Definition remainders (r2 : Region) (rs : list Region) : list Region :=
  List.filter (λ x, negb (Region_Empty x))
    (concat ((λ x, Region_Cut x r2) <$> rs)).

(** One [Add] after the other on the same set. *)
Fixpoint AddEach (xs : list Region) (ret : RegionSet) (tr : Trace)
    : outcome (RegionSet * Trace) :=
  match xs with
  | [] => Returns (ret, tr)
  | x :: xs' => '(ret', tr') ← Add x ret tr; AddEach xs' ret' tr'
  end.

(** The calls [evs] are one call of every callback registered in [cbs] and
    nothing else. *)
Definition called_once (cbs : gmap string Callback) (evs : Trace) : Prop :=
  NoDup evs ∧ ∀ key cb, (key, cb) ∈ evs ↔ cbs !! key = Some cb.

(** The non-overlap invariant on a stored sequence: regions at two different
    positions do not intersect and neither covers the other. *)
Definition non_overlapping (rs : list Region) : Prop :=
  ∀ i j x y, i ≠ j → rs !! i = Some x → rs !! j = Some y →
    Region_Intersects x y = false ∧ Region_Covers x y = false.

(** Regions at two different positions do not intersect. *)
Definition pairwise_apart (rs : list Region) : Prop :=
  ∀ i j x y, i ≠ j → rs !! i = Some x → rs !! j = Some y →
    Region_Intersects x y = false.

(** At most one stored region overlaps [r2], by the test of [overlaps]. *)
Definition at_most_one_overlap (r2 : Region) (rs : list Region) : Prop :=
  ∀ i j x y, rs !! i = Some x → rs !! j = Some y →
    overlapping r2 x = true → overlapping r2 y = true → i = j.

(** What [merge] is said to leave behind: the entry at [reference] covered
    with every listed entry, the listed entries gone, the rest as it was. *)
Definition merge_spec (reference : Z) (merge : list Z) (rs : list Region)
    : list Region :=
  let pick (acc : Region) (j : Z) :=
    from_option (Region_Cover acc) acc (rs !! Z.to_nat j) in
  let keep (k : nat) (x : Region) :=
    if decide (Z.of_nat k ∈ merge) then None
    else if decide (Z.of_nat k = reference) then Some (foldl pick x merge)
    else Some x in
  omap id (imap keep rs).

(** [merge_spec] with one listed index, entry by entry: [oj] is the
    position of the listed entry and [oref] the position of the reference
    entry, when they are still ahead. *)
Definition keep_entry (oref oj : option nat) (b : Region) (k : nat)
    (x : Region) : option Region :=
  if decide (oj = Some k) then None
  else if decide (oref = Some k) then Some (Region_Cover x b)
  else Some x.

(** A position seen from one entry further on. *)
Definition ahead (o : option nat) : option nat :=
  match o with
  | Some (S n) => Some n
  | _ => None
  end.

End RegionSet.

Arguments RegionSet Region Callback : clear implicits.
Arguments Trace Callback : clear implicits.

(** ** A concrete Region *)

Module Interval.

(** Modelled from the spec: the [Region] of region.go, which is not among
    the sources, as the specification's data model describes the interval
    primitive: two coordinates with value equality on the pair. *)
Record Region := mk { A : Z; B : Z }.

#[global] Instance Region_eq_dec : EqDecision Region.
Proof. solve_decision. Defined.

(** Modelled from the spec: [Begin] and [End] of region.go, the smaller and
    the larger of the two coordinates. *)
Definition Begin (r : Region) : Z := Z.min (A r) (B r).
Definition End (r : Region) : Z := Z.max (A r) (B r).

(** Modelled from the spec: [Contains] of region.go, point containment in
    the closed extent. *)
Definition Contains (r : Region) (point : Z) : bool :=
  bool_decide (Begin r ≤ point ≤ End r).

(** Modelled from the spec: [Covers] of region.go, the extent of [r] fully
    contains the extent of [r2]. *)
Definition Covers (r r2 : Region) : bool :=
  Contains r (Begin r2) && bool_decide (End r2 ≤ End r).

(** Modelled from the spec: [Empty] of region.go, the two coordinates
    coincide. *)
Definition Empty (r : Region) : bool := bool_decide (A r = B r).

(** Modelled from the spec: [Intersects] of region.go.  Two regions
    intersect when they are equal or share a stretch of positive length;
    regions right next to each other do not, as the comment on [RegionSet]
    in regionset.go asks. *)
Definition Intersects (r other : Region) : bool :=
  bool_decide (r = other)
  || bool_decide (Z.max (Begin r) (Begin other) < Z.min (End r) (End other)).

(** Modelled from the spec: [Cover] of region.go, the smallest region over
    both, in the direction of the receiver. *)
Definition Cover (r other : Region) : Region :=
  if decide (A r ≤ B r)
  then mk (Z.min (Begin r) (Begin other)) (Z.max (End r) (End other))
  else mk (Z.max (End r) (End other)) (Z.min (Begin r) (Begin other)).

(** Modelled from the spec: [Cut] of region.go, the left remainder when [r]
    contains the begin of [other], the right remainder when it contains its
    end, and [r] itself when there is neither and [other] does not cover
    [r]. *)
Definition Cut (r other : Region) : list Region :=
  let left := if Contains r (Begin other)
              then [mk (Begin r) (Begin other)] else [] in
  let right := if Contains r (End other)
               then [mk (End other) (End r)] else [] in
  match left ++ right with
  | [] => if Covers other r then [] else [r]
  | ret => ret
  end.

(** Modelled from the spec: [Adjust] of region.go, the coordinates at or
    after [position] move by [delta]. *)
Definition Adjust (r : Region) (position delta : Z) : Region :=
  mk (if decide (position ≤ A r) then A r + delta else A r)
     (if decide (position ≤ B r) then B r + delta else B r).

(** Two regions share only an end point: one ends where the other begins. *)
Definition touching (r other : Region) : Prop :=
  End r = Begin other ∨ End other = Begin r.

#[global] Instance ops : RegionOps Region := {
  Region_Begin := Begin;
  Region_End := End;
  Region_Contains := Contains;
  Region_Covers := Covers;
  Region_Intersects := Intersects;
  Region_Empty := Empty;
  Region_Cover := Cover;
  Region_Cut := Cut;
  Region_Adjust := Adjust;
}.

End Interval.

(** The region from [a] to [b]. *)
Definition span (a b : Z) : Interval.Region := Interval.mk a b.

(** A new set of concrete regions; its callbacks would be numbers. *)
Definition new_set : RegionSet Interval.Region nat := zero.

(** ** Ascending index lists

    [asc lo m hi]: the indices of [m] grow strictly and lie in [[lo, hi)]. *)

Fixpoint asc (lo : Z) (m : list Z) (hi : Z) : Prop :=
  match m with
  | [] => True
  | j :: m' => lo ≤ j < hi ∧ asc (j + 1) m' hi
  end.

(** ** Notions for the further properties *)

Section RegionSetNotions.

Context {Region : Type} `{EqDecision Region} `{RegionOps Region}.

(** The cover of [a] with the entries of [rs] at the indices [m], taken in
    order: what the first loop of [merge] leaves at [reference]. *)
Definition cover_all (rs : list Region) (a : Region) (m : list Z) : Region :=
  foldl (λ acc j, from_option (Region_Cover acc) acc (rs !! Z.to_nat j)) a m.

(** No region of [rs] overlaps, by the test of [overlaps], a region stored
    before it. *)
Definition no_later_overlap (rs : list Region) : Prop :=
  ∀ j k x y, (j < k)%nat → rs !! j = Some x → rs !! k = Some y →
    overlapping y x = false.

(** No region of [batch] overlaps, by the test of [overlaps], a region of
    [rs]. *)
Definition none_overlaps (batch rs : list Region) : Prop :=
  ∀ x y, y ∈ batch → x ∈ rs → overlapping y x = false.

End RegionSetNotions.

(** ** Slices: lengths and bounds *)

Lemma len_nonneg {A} (s : list A) : 0 ≤ len s.
Proof. unfold len. lia. Qed.

Lemma len_app {A} (s t : list A) : len (s ++ t) = len s + len t.
Proof. unfold len. rewrite length_app. lia. Qed.

Lemma len_cons {A} (x : A) (s : list A) : len (x :: s) = 1 + len s.
Proof. unfold len. simpl. lia. Qed.

Lemma len_store {A} (s : list A) i x : len (store s i x) = len s.
Proof. unfold len, store. by rewrite length_insert. Qed.

Lemma index_in_range {A} (s : list A) (i : Z) :
  0 ≤ i < len s → ∃ x, s !! Z.to_nat i = Some x ∧ index s i = Returns x.
Proof.
  intros Hi. unfold index. rewrite decide_True by done.
  destruct (lookup_lt_is_Some_2 s (Z.to_nat i)) as [x Hx].
  { unfold len in Hi. lia. }
  exists x. by rewrite Hx.
Qed.

Lemma index_out_of_range {A} (s : list A) (i : Z) :
  ¬ (0 ≤ i < len s) → index s i = Panics.
Proof. intros Hi. unfold index. by rewrite decide_False. Qed.

Lemma slice_copy_returns {A} (s : list A) (d lo hi : Z) :
  0 ≤ d ≤ len s → 0 ≤ lo ≤ hi → hi ≤ len s →
  ∃ s', slice_copy s d lo hi = Returns s' ∧ len s' = len s.
Proof.
  intros Hd Hlo Hhi. unfold slice_copy. rewrite decide_True by done.
  eexists. split; [done|].
  unfold len in *.
  rewrite !length_app, !length_take, !length_drop. lia.
Qed.

Lemma slice_to_returns {A} (s : list A) (n : Z) :
  0 ≤ n ≤ len s → slice_to s n = Returns (take (Z.to_nat n) s).
Proof. intros Hn. unfold slice_to. by rewrite decide_True. Qed.

(** ** Ascending index lists *)

Lemma asc_weaken lo lo' hi hi' m :
  lo' ≤ lo → hi ≤ hi' → asc lo m hi → asc lo' m hi'.
Proof.
  revert lo lo'. induction m as [|j m IH]; simpl; [done|].
  intros lo lo' Hlo Hhi [Hj Hm]. split; [lia|].
  apply (IH (j + 1)); [lia | done | done].
Qed.

Lemma asc_snoc lo m hi j :
  asc lo m hi → hi ≤ j → lo ≤ j → asc lo (m ++ [j]) (j + 1).
Proof.
  revert lo. induction m as [|k m IH]; simpl; intros lo Hm Hhi Hlo.
  - lia.
  - destruct Hm as [Hk Hm]. split; [lia|]. apply IH; [done | lia | lia].
Qed.

Lemma asc_len lo m hi : asc lo m hi → len m ≤ Z.max 0 (hi - lo).
Proof.
  revert lo. induction m as [|j m IH]; simpl; intros lo Hm.
  - unfold len. simpl. lia.
  - destruct Hm as [Hj Hm]. apply IH in Hm. rewrite len_cons. lia.
Qed.

Section RegionSetFacts.

Context {Region : Type} `{EqDecision Region} `{RegionOps Region}.
Context {Callback : Type}.

Implicit Types (rs : list Region) (m ov : list Z).
Implicit Types (r : RegionSet Region Callback) (tr : Trace Callback).

(** *** [overlaps] returns an ascending list of indices of the range *)

Lemma overlaps_loop_returns rs reference n i ret :
  0 ≤ i → i + Z.of_nat n ≤ len rs →
  ∃ ov, overlaps_loop rs reference n i ret = Returns (ret ++ ov)
        ∧ asc i ov (i + Z.of_nat n).
Proof.
  revert i ret. induction n as [|n IH]; intros i ret Hi Hn; simpl.
  - exists []. by rewrite app_nil_r.
  - destruct (index_in_range rs i) as (x & _ & ->); [lia|]. simpl.
    destruct (IH (i + 1)
                (if overlapping reference x then ret ++ [i] else ret))
      as (ov & -> & Hov); [lia | lia |].
    destruct (overlapping reference x).
    + exists (i :: ov). rewrite <- app_assoc. split; [done|].
      simpl. split; [lia|]. eapply asc_weaken; [| |exact Hov]; lia.
    + exists ov. split; [done|]. eapply asc_weaken; [| |exact Hov]; lia.
Qed.

Lemma overlaps_returns rs reference e :
  0 ≤ e ≤ len rs →
  ∃ ov, overlaps rs reference 0 e = Returns ov ∧ asc 0 ov e.
Proof.
  intros He. unfold overlaps.
  destruct (overlaps_loop_returns rs reference (Z.to_nat (e - 0)) 0 [])
    as (ov & -> & Hov); [lia | lia |].
  exists ov. split; [done|]. eapply asc_weaken; [| |exact Hov]; lia.
Qed.

Lemma overlaps_loop_elems rs reference n i ret :
  0 ≤ i → i + Z.of_nat n ≤ len rs →
  ∃ ov, overlaps_loop rs reference n i ret = Returns (ret ++ ov)
        ∧ asc i ov (i + Z.of_nat n)
        ∧ ∀ j, j ∈ ov ↔
               i ≤ j < i + Z.of_nat n
               ∧ ∃ x, rs !! Z.to_nat j = Some x
                      ∧ overlapping reference x = true.
Proof.
  revert i ret. induction n as [|n IH]; intros i ret Hi Hn; simpl.
  - exists []. rewrite app_nil_r. split; [done|]. split; [done|].
    intros j. split; [by intros ?%elem_of_nil | lia].
  - destruct (index_in_range rs i) as (x & Hx & ->); [lia|]. simpl.
    destruct (IH (i + 1)
                (if overlapping reference x then ret ++ [i] else ret))
      as (ov & -> & Hasc & Helems); [lia | lia |].
    destruct (overlapping reference x) eqn:Hov.
    + exists (i :: ov). rewrite <- app_assoc. split; [done|]. split.
      * simpl. split; [lia|]. eapply asc_weaken; [| |exact Hasc]; lia.
      * intros j. rewrite elem_of_cons, Helems. split.
        -- intros [->|[Hj Hjx]]; [|split; [lia | done]].
           split; [lia|]. by exists x.
        -- intros [Hj Hjx]. destruct (decide (j = i)) as [->|Hne];
             [by left | right]. split; [lia | done].
    + exists ov. split; [done|]. split.
      * eapply asc_weaken; [| |exact Hasc]; lia.
      * intros j. rewrite Helems. split.
        -- intros [Hj Hjx]. split; [lia | done].
        -- intros [Hj (y & Hy & Hovy)]. split; [|by exists y].
           destruct (decide (j = i)) as [->|Hne]; [|lia].
           rewrite Hx in Hy. injection Hy as ->. congruence.
Qed.

Lemma overlaps_elems rs reference :
  ∃ ov, overlaps rs reference 0 (len rs) = Returns ov
        ∧ asc 0 ov (len rs)
        ∧ ∀ j, j ∈ ov ↔
               0 ≤ j ∧ ∃ x, rs !! Z.to_nat j = Some x
                            ∧ overlapping reference x = true.
Proof.
  unfold overlaps. pose proof (len_nonneg rs) as Hlen.
  destruct (overlaps_loop_elems rs reference (Z.to_nat (len rs - 0)) 0 [])
    as (ov & -> & Hasc & Helems); [lia | lia |].
  exists ov. split; [done|]. split.
  - eapply asc_weaken; [| |exact Hasc]; lia.
  - intros j. rewrite Helems. split.
    + intros [Hj Hx]. split; [lia | done].
    + intros [Hj (x & Hx & Hov)]. split; [|by exists x].
      apply lookup_lt_Some in Hx. unfold len in *. lia.
Qed.

(** *** [merge] returns on an ascending list of valid indices *)

Lemma merge_cover_returns reference m rs :
  0 ≤ reference < len rs → asc 0 m (len rs) →
  ∃ rs', merge_cover reference m rs = Returns rs' ∧ len rs' = len rs.
Proof.
  intros Href. revert rs Href.
  assert (Hgen : ∀ lo rs, 0 ≤ lo → 0 ≤ reference < len rs →
            asc lo m (len rs) →
            ∃ rs', merge_cover reference m rs = Returns rs'
                   ∧ len rs' = len rs).
  { induction m as [|j m IH]; intros lo rs Hlo Href Hm; simpl.
    - by exists rs.
    - destruct Hm as [Hj Hm].
      destruct (index_in_range rs reference) as (a & _ & ->); [done|].
      destruct (index_in_range rs j) as (b & _ & ->); [lia|]. simpl.
      destruct (IH (j + 1) (store rs reference (Region_Cover a b)))
        as (rs' & -> & Hlen).
      + lia.
      + by rewrite len_store.
      + by rewrite len_store.
      + exists rs'. by rewrite Hlen, len_store. }
  intros rs Href Hm. by apply (Hgen 0).
Qed.

Lemma nth_middle_next (pre : list Z) j1 j' rest :
  nth (Z.to_nat (len pre + 1)) (pre ++ j1 :: j' :: rest) 0 = j'.
Proof.
  unfold len.
  replace (Z.to_nat (Z.of_nat (length pre) + 1)) with (S (length pre)) by lia.
  rewrite app_nth2 by lia.
  replace (S (length pre) - length pre)%nat with 1%nat by lia. done.
Qed.

Lemma merge_shift_returns m pre todo rs :
  m = pre ++ todo → asc (len pre) todo (len rs) →
  ∃ rs', merge_shift m (len m - 1) todo (len pre) (len pre) rs = Returns rs'
         ∧ len rs' = len rs.
Proof.
  revert pre rs. induction todo as [|j1 todo IH]; intros pre rs Hm Hasc.
  - by exists rs.
  - simpl in Hasc. destruct Hasc as [Hj1 Hasc].
    pose proof (len_nonneg pre) as Hpre.
    cbn [merge_shift].
    set (j2 := if decide (len pre < len m - 1)
               then nth (Z.to_nat (len pre + 1)) m 0 - 1
               else len rs - len pre).
    assert (Hj2 : j2 ≤ len rs).
    { subst j2. case_decide as Hl; [|lia].
      destruct todo as [|j' rest].
      - subst m. rewrite len_app, len_cons in Hl. unfold len in Hl.
        simpl in Hl. lia.
      - subst m. rewrite nth_middle_next. simpl in Hasc. lia. }
    assert (Hstep : ∃ rs1,
      (if decide (j2 > 0 ∧ j1 + 1 ≤ j2)
       then slice_copy rs (j1 - len pre) (j1 + 1) j2
       else Returns rs) = Returns rs1 ∧ len rs1 = len rs).
    { case_decide as Hc; [|by exists rs].
      apply slice_copy_returns; lia. }
    destruct Hstep as (rs1 & -> & Hlen1). simpl.
    destruct (IH (pre ++ [j1]) rs1) as (rs' & Hrun & Hlen).
    + by rewrite <- app_assoc.
    + rewrite len_app, Hlen1. eapply asc_weaken; [| |exact Hasc].
      * change (len [j1]) with 1. lia.
      * lia.
    + rewrite len_app in Hrun. change (len [j1]) with 1 in Hrun.
      exists rs'. split; [exact Hrun | lia].
Qed.

Lemma merge_returns reference m rs :
  0 ≤ reference < len rs → asc 0 m (len rs) →
  ∃ rs', merge reference m rs = Returns rs' ∧ len rs' = len rs - len m.
Proof.
  intros Href Hm. unfold merge.
  destruct (merge_cover_returns reference m rs) as (rs1 & -> & Hlen1);
    [done | done |]. simpl.
  destruct (merge_shift_returns m [] m rs1) as (rs2 & Hrun & Hlen2);
    [done | by rewrite Hlen1 |].
  change (len []) with 0 in Hrun. rewrite Hrun. simpl.
  pose proof (asc_len _ _ _ Hm) as Hbound.
  pose proof (len_nonneg m). pose proof (len_nonneg rs).
  rewrite slice_to_returns by lia.
  eexists. split; [done|].
  unfold len in *. rewrite length_take. lia.
Qed.

(** *** The mutating operations return *)

Lemma Add_locked_returns (r2 : Region) rs :
  ∃ rs', Add_locked r2 rs = Returns rs' ∧ 1 ≤ len rs' ≤ len rs + 1.
Proof.
  unfold Add_locked. pose proof (len_nonneg rs) as Hrs.
  destruct (overlaps_returns rs r2 (len rs)) as (ov & -> & Hov); [lia|].
  simpl. destruct ov as [|ref ov'].
  - exists (rs ++ [r2]). split; [done|].
    rewrite len_app. change (len [r2]) with 1. lia.
  - simpl in Hov. destruct Hov as [Href Hov].
    rewrite len_app. change (len [r2]) with 1.
    replace (len rs + 1 - 1) with (len rs) by lia.
    pose proof (asc_snoc _ _ _ (len rs) Hov) as Hm.
    pose proof (asc_len _ _ _ Hov) as Hbound.
    pose proof (len_nonneg ov') as Hov'.
    destruct (merge_returns ref (ov' ++ [len rs]) (rs ++ [r2]))
      as (rs' & -> & Hlen).
    + rewrite len_app. change (len [r2]) with 1. lia.
    + rewrite len_app. change (len [r2]) with 1.
      eapply asc_weaken; [| |apply Hm]; lia.
    + exists rs'. split; [done|].
      rewrite !len_app in Hlen. change (len [r2]) with 1 in Hlen.
      change (len [len rs]) with 1 in Hlen. lia.
Qed.

Lemma Add_returns (r2 : Region) r tr :
  ∃ rs', Add r2 r tr
         = Returns (set_regions r rs', tr ++ map_to_list (onChangeCallbacks r)).
Proof.
  unfold Add. destruct (Add_locked_returns r2 (regions r)) as (rs' & -> & _).
  by exists rs'.
Qed.

Lemma flush_loop_returns fuel i rs :
  0 ≤ i → len rs - i ≤ Z.of_nat fuel →
  ∃ rs', flush_loop fuel i rs = Returns rs'.
Proof.
  revert i rs. induction fuel as [|fuel IH]; intros i rs Hi Hfuel.
  - exists rs. simpl. rewrite decide_False by lia. done.
  - simpl. case_decide as Hlt; [|by exists rs].
    destruct (index_in_range rs i) as (x & _ & ->); [lia|]. simpl.
    destruct (overlaps_returns rs x i) as (ov & -> & Hov); [lia|]. simpl.
    destruct ov as [|ref ov'].
    + apply IH; lia.
    + simpl in Hov. destruct Hov as [Href Hov].
      pose proof (asc_snoc _ _ _ i Hov) as Hm.
      destruct (merge_returns ref (ov' ++ [i]) rs) as (rs' & -> & Hlen).
      * lia.
      * eapply asc_weaken; [| |apply Hm]; lia.
      * simpl. apply IH; [lia|].
        pose proof (len_nonneg (ov' ++ [i])). lia.
Qed.

Lemma flush_returns r tr :
  ∃ rs', flush r tr
         = Returns (set_regions r rs', tr ++ map_to_list (onChangeCallbacks r)).
Proof.
  unfold flush.
  destruct (flush_loop_returns (length (regions r)) 1 (regions r))
    as (rs' & ->); [lia | unfold len; lia |].
  by exists rs'.
Qed.

Lemma AddAll_loop_returns todo start rs :
  0 ≤ start < len rs → ∃ rs', AddAll_loop todo start rs = Returns rs'.
Proof.
  revert start rs. induction todo as [|r2 todo IH]; intros start rs Hstart.
  - by exists rs.
  - simpl.
    destruct (overlaps_returns rs r2 start) as (ov & -> & Hov); [lia|].
    simpl. destruct ov as [|ref ov'].
    + by apply IH.
    + simpl in Hov. destruct Hov as [Href Hov].
      pose proof (asc_snoc _ _ _ (len rs - 1) Hov) as Hm.
      pose proof (asc_len _ _ _ Hov) as Hbound.
      pose proof (len_nonneg ov') as Hov'.
      destruct (merge_returns ref (ov' ++ [len rs - 1]) rs)
        as (rs' & -> & Hlen).
      * lia.
      * eapply asc_weaken; [| |apply Hm]; lia.
      * simpl. apply IH.
        rewrite len_app in *. change (len [len rs - 1]) with 1 in *. lia.
Qed.

Lemma AddAll_returns rs r tr :
  ∃ rs', AddAll rs r tr
         = Returns (set_regions r rs', tr ++ map_to_list (onChangeCallbacks r)).
Proof.
  unfold AddAll.
  destruct (flush_returns (mkRegionSet rs (∅ : gmap string Callback)) tr)
    as (rs1 & ->).
  simpl. rewrite map_to_list_empty, app_nil_r. unfold Regions. simpl.
  destruct rs1 as [|x rs1].
  - rewrite app_nil_r. simpl. by exists (regions r).
  - destruct (AddAll_loop_returns (x :: rs1) (len (regions r))
                (regions r ++ x :: rs1)) as (rs2 & ->).
    + pose proof (len_nonneg (regions r)). pose proof (len_nonneg rs1).
      rewrite len_app, len_cons. lia.
    + by exists rs2.
Qed.

End RegionSetFacts.

(** ** Properties of the operations *)

Section RegionSetClaims.

Context {Region : Type} `{EqDecision Region} `{RegionOps Region}.
Context {Callback : Type}.

Implicit Types (rs : list Region).
Implicit Types (r : RegionSet Region Callback) (tr : Trace Callback).

(** *** [Add] on a set of one region *)

Lemma Add_locked_second_apart (x y : Region) :
  overlapping y x = false → Add_locked y [x] = Returns [x; y].
Proof.
  intros Hxy. unfold Add_locked, overlaps. simpl.
  unfold index. simpl. by rewrite Hxy.
Qed.

Lemma Add_locked_second_overlapping (x y : Region) :
  overlapping y x = true → Add_locked y [x] = Returns [Region_Cover x y].
Proof.
  intros Hxy. unfold Add_locked, overlaps. simpl.
  unfold index. simpl. by rewrite Hxy.
Qed.

(** *** [merge] on short lists *)

Lemma merge_two_of_four (a b c d : Region) :
  merge 0 [1; 2] [a; b; c; d]
  = Returns [Region_Cover (Region_Cover a b) c; b].
Proof. reflexivity. Qed.

Lemma merge_spec_two_of_four (a b c d : Region) :
  merge_spec 0 [1; 2] [a; b; c; d]
  = [Region_Cover (Region_Cover a b) c; d].
Proof. reflexivity. Qed.

Lemma slice_copy_tail (rs : list Region) (j : Z) :
  0 ≤ j < len rs →
  slice_copy rs (j - 0) (j + 1) (len rs - 0)
  = Returns (take (Z.to_nat j) rs ++ drop (S (Z.to_nat j)) rs
             ++ drop (Z.to_nat (len rs - 1)) rs).
Proof.
  intros Hj. unfold slice_copy. rewrite decide_True by lia.
  f_equal. f_equal; [f_equal; lia|]. unfold len in *. f_equal.
  - rewrite take_take.
    replace (Z.to_nat (j + 1)) with (S (Z.to_nat j)) by lia.
    apply take_ge. rewrite length_drop.
    rewrite Z.min_r by lia. rewrite Nat.min_id. lia.
  - f_equal. rewrite Z.min_r by lia. lia.
Qed.

Lemma merge_one_listed (reference j : Z) (rs : list Region) (a b : Region) :
  rs !! Z.to_nat reference = Some a → rs !! Z.to_nat j = Some b →
  0 ≤ reference → 0 ≤ j →
  merge reference [j] rs
  = Returns (delete (Z.to_nat j) (store rs reference (Region_Cover a b))).
Proof.
  intros Ha Hb Href Hj.
  pose proof (lookup_lt_Some _ _ _ Ha) as Hlta.
  pose proof (lookup_lt_Some _ _ _ Hb) as Hltb.
  unfold merge. cbn [merge_cover].
  unfold index. rewrite !decide_True by (unfold len; lia).
  rewrite Ha, Hb. simpl.
  set (rs1 := store rs reference (Region_Cover a b)).
  assert (Hlen1 : len rs1 = len rs) by apply len_store.
  rewrite decide_True by (unfold len in *; lia).
  rewrite slice_copy_tail by (unfold len in *; lia). simpl.
  set (kept := take (Z.to_nat j) rs1 ++ drop (S (Z.to_nat j)) rs1).
  assert (Hkept : length kept = (length rs - 1)%nat).
  { subst kept. rewrite length_app, length_take, length_drop.
    unfold len in Hlen1. lia. }
  rewrite app_assoc. fold kept.
  assert (Hlast : length (drop (Z.to_nat (len rs1 - 1)) rs1) = 1%nat).
  { rewrite length_drop. unfold len in *. lia. }
  assert (Hall : len (kept ++ drop (Z.to_nat (len rs1 - 1)) rs1)
                 = Z.of_nat (length kept) + 1).
  { rewrite len_app. unfold len at 1 2. rewrite Hlast. lia. }
  change (len [j]) with 1.
  rewrite slice_to_returns by lia.
  f_equal. rewrite Hall.
  replace (Z.to_nat (Z.of_nat (length kept) + 1 - 1)) with (length kept)
    by lia.
  rewrite take_app_length. subst kept. by rewrite delete_take_drop.
Qed.

(** *** [merge_spec] with one listed index *)

Lemma keep_entry_ahead (oref oj : option nat) (b : Region) k x :
  keep_entry oref oj b (S k) x = keep_entry (ahead oref) (ahead oj) b k x.
Proof.
  unfold keep_entry, ahead.
  destruct oref as [[|r]|], oj as [[|j]|]; repeat case_decide; congruence.
Qed.

Lemma omap_imap_keep_entry (b : Region) rs oref oj :
  omap id (imap (keep_entry oref oj b) rs)
  = from_option (λ j, delete j) id oj
      (from_option (alter (λ x, Region_Cover x b)) id oref rs).
Proof.
  revert oref oj. induction rs as [|x rs IH]; intros oref oj.
  - by destruct oref, oj.
  - rewrite imap_cons.
    rewrite (imap_ext _ (keep_entry (ahead oref) (ahead oj) b))
      by (intros k y _; apply keep_entry_ahead).
    cbn [omap list_omap]. rewrite IH. unfold keep_entry, ahead.
    destruct oref as [[|r]|], oj as [[|j]|]; repeat case_decide;
      simplify_eq; done.
Qed.

Lemma merge_spec_one_listed (reference j : nat) rs (a b : Region) :
  rs !! reference = Some a → rs !! j = Some b →
  merge_spec (Z.of_nat reference) [Z.of_nat j] rs
  = delete j (<[reference := Region_Cover a b]> rs).
Proof.
  intros Ha Hb. unfold merge_spec.
  rewrite (imap_ext _ (keep_entry (Some reference) (Some j) b)).
  - rewrite omap_imap_keep_entry. simpl. f_equal.
    apply list_eq. intros k.
    destruct (decide (k = reference)) as [->|Hne].
    + rewrite list_lookup_alter_eq, Ha. simpl.
      by rewrite list_lookup_insert_eq by by eapply lookup_lt_Some.
    + by rewrite list_lookup_alter_ne, list_lookup_insert_ne by done.
  - intros k x Hk. unfold keep_entry. simpl.
    rewrite Nat2Z.id, Hb. simpl.
    destruct (decide (k = j)) as [->|Hkj].
    + rewrite decide_True by (by apply list_elem_of_singleton).
      by rewrite decide_True.
    + rewrite decide_False by (rewrite list_elem_of_singleton; lia).
      rewrite (decide_False (P := Some j = Some k)) by congruence.
      destruct (decide (k = reference)) as [->|Hkr].
      * by rewrite !decide_True.
      * rewrite decide_False by lia. by rewrite decide_False by congruence.
Qed.

(** *** [overlaps] when nothing overlaps *)

Lemma overlaps_loop_none (rs : list Region) (reference : Region) n i ret :
  0 ≤ i → i + Z.of_nat n ≤ len rs →
  (∀ x, x ∈ rs → overlapping reference x = false) →
  overlaps_loop rs reference n i ret = Returns ret.
Proof.
  intros Hi Hn Hnone. revert i ret Hi Hn.
  induction n as [|n IH]; intros i ret Hi Hn; simpl; [done|].
  destruct (index_in_range rs i) as (x & Hx & ->); [lia|]. simpl.
  rewrite Hnone by (by eapply list_elem_of_lookup_2).
  apply IH; lia.
Qed.

(** *** Callbacks and [Cut] *)

Lemma called_once_map_to_list (cbs : gmap string Callback) :
  called_once cbs (map_to_list cbs).
Proof.
  split; [apply NoDup_map_to_list|].
  intros key cb. apply elem_of_map_to_list.
Qed.

Lemma Add_without_callbacks (x : Region) r tr :
  onChangeCallbacks r = ∅ →
  ∃ r', Add x r tr = Returns (r', tr) ∧ onChangeCallbacks r' = ∅.
Proof.
  intros Hcbs. destruct (Add_returns x r tr) as (rs' & ->).
  rewrite Hcbs, map_to_list_empty, app_nil_r.
  by exists (set_regions r rs').
Qed.

Lemma AddEach_without_callbacks (xs : list Region) r tr :
  onChangeCallbacks r = ∅ →
  ∃ r', AddEach xs r tr = Returns (r', tr) ∧ onChangeCallbacks r' = ∅.
Proof.
  revert r. induction xs as [|x xs IH]; intros r Hcbs; simpl.
  - by exists r.
  - destruct (Add_without_callbacks x r tr Hcbs) as (r1 & -> & Hcbs1).
    simpl. by apply IH.
Qed.

Lemma AddEach_app (xs ys : list Region) r tr :
  AddEach (xs ++ ys) r tr
  = '(r', tr') ← AddEach xs r tr; AddEach ys r' tr'.
Proof.
  revert r tr. induction xs as [|x xs IH]; intros r tr; simpl; [done|].
  destruct (Add x r tr) as [[r1 tr1]| |]; simpl; [apply IH | done | done].
Qed.

Lemma Cut_inner_AddEach (xors : list Region) r tr :
  Cut_inner xors r tr
  = AddEach (List.filter (λ x, negb (Region_Empty x)) xors) r tr.
Proof.
  revert r tr. induction xors as [|x xors IH]; intros r tr; simpl; [done|].
  destruct (Region_Empty x); simpl; [apply IH|].
  destruct (Add x r tr) as [[r1 tr1]| |]; simpl; [apply IH | done | done].
Qed.

Lemma Cut_outer_AddEach (r2 : Region) rs r tr :
  Cut_outer rs r2 r tr = AddEach (remainders r2 rs) r tr.
Proof.
  unfold remainders. revert r tr.
  induction rs as [|x rs IH]; intros r tr; simpl; [done|].
  rewrite List.filter_app, AddEach_app, Cut_inner_AddEach.
  destruct (AddEach _ r tr) as [[r1 tr1]| |]; simpl; [apply IH | done | done].
Qed.

(** *** The properties *)

(** C6: [Cut] returns for every set and region; it leaves the receiver (its
    stored sequence and its callbacks) as it was and calls no callback; the
    set it returns has no callbacks and is what inserting, with [Add], every
    non-empty remainder into a new set gives. *)
Theorem Cut_leaves_receiver_and_detaches (r2 : Region) r tr :
  ∃ ret,
    Cut r2 r tr = Returns (ret, r, tr)
    ∧ onChangeCallbacks ret = ∅
    ∧ AddEach (remainders r2 (regions r)) zero tr = Returns (ret, tr).
Proof.
  unfold Cut. rewrite Cut_outer_AddEach.
  destruct (AddEach_without_callbacks (remainders r2 (regions r)) zero tr)
    as (ret & Hrun & Hcbs); [done|].
  exists ret. by rewrite Hrun.
Qed.

(** C7: [Clear] on a set whose sequence is empty returns, leaves the set as
    it was and calls every registered callback once; [AddAll] returns on
    every batch and every set, keeps the callbacks and calls every
    registered callback once, whatever was merged. *)
Theorem Clear_and_AddAll_call_once :
  (∀ r tr, regions r = [] →
     ∃ evs, Clear r tr = Returns (r, tr ++ evs)
            ∧ called_once (onChangeCallbacks r) evs)
  ∧ (∀ rs r tr,
       ∃ r' evs, AddAll rs r tr = Returns (r', tr ++ evs)
                 ∧ onChangeCallbacks r' = onChangeCallbacks r
                 ∧ called_once (onChangeCallbacks r) evs).
Proof.
  split.
  - intros [rs cbs] tr Hrs. simpl in Hrs. subst rs.
    exists (map_to_list cbs). split; [done|].
    apply called_once_map_to_list.
  - intros rs r tr. destruct (AddAll_returns rs r tr) as (rs' & ->).
    exists (set_regions r rs'), (map_to_list (onChangeCallbacks r)).
    split; [done|]. split; [done|]. apply called_once_map_to_list.
Qed.

(** C8: [Contains] answers true exactly when some stored region is equal to
    the region asked for, or contains both its begin and its end as points. *)
Theorem Contains_iff r (r2 : Region) :
  Contains r r2 = true ↔
  ∃ x, x ∈ regions r
       ∧ (x = r2
          ∨ (Region_Contains x (Region_Begin r2) = true
             ∧ Region_Contains x (Region_End r2) = true)).
Proof.
  unfold Contains. rewrite existsb_exists. split.
  - intros (x & Hin & Hx). exists x. split; [by apply list_elem_of_In|].
    apply orb_true_iff in Hx as [Heq|Hboth].
    + left. by apply bool_decide_eq_true in Heq.
    + right. by apply andb_true_iff in Hboth.
  - intros (x & Hin & Hx). exists x. split; [by apply list_elem_of_In|].
    apply orb_true_iff. destruct Hx as [Heq|Hboth].
    + left. by apply bool_decide_eq_true.
    + right. by apply andb_true_iff.
Qed.

(** C9: [Get] returns the stored region at position [i] when
    [0 <= i < Len()], and panics for every other [i]. *)
Theorem Get_in_range_or_panics r (i : Z) :
  (0 ≤ i < Len r →
     ∃ x, regions r !! Z.to_nat i = Some x ∧ Get r i = Returns x)
  ∧ (¬ (0 ≤ i < Len r) → Get r i = Panics).
Proof.
  unfold Get, Len. split.
  - apply index_in_range.
  - apply index_out_of_range.
Qed.

(** C10: on a set whose sequence is empty both [HasNonEmpty] and [HasEmpty]
    answer false.  Each is an existence check of its own, so [HasEmpty] is
    not the opposite of [HasNonEmpty]. *)
Theorem HasNonEmpty_HasEmpty_independent :
  (∀ r, regions r = [] → HasNonEmpty r = false ∧ HasEmpty r = false)
  ∧ (∀ r, HasNonEmpty r = true ↔ ∃ x, x ∈ regions r ∧ Region_Empty x = false)
  ∧ (∀ r, HasEmpty r = true ↔ ∃ x, x ∈ regions r ∧ Region_Empty x = true)
  ∧ ¬ (∀ r, HasEmpty r = negb (HasNonEmpty r)).
Proof.
  split; [|split; [|split]].
  - intros r Hrs. unfold HasNonEmpty, HasEmpty. by rewrite Hrs.
  - intros r. unfold HasNonEmpty. rewrite existsb_exists.
    split; intros (x & Hin & Hx); exists x.
    + split; [by apply list_elem_of_In | by apply negb_true_iff].
    + split; [by apply list_elem_of_In | by apply negb_true_iff].
  - intros r. unfold HasEmpty. rewrite existsb_exists.
    split; intros (x & Hin & Hx); exists x.
    + split; [by apply list_elem_of_In | done].
    + split; [by apply list_elem_of_In | done].
  - intros Hopp. specialize (Hopp zero). discriminate Hopp.
Qed.

(** *** Further properties of the operations *)

(** X1: [merge] with one listed index does what it is said to do: for valid
    indices it returns the sequence with the entry at [reference] covered
    with the listed entry, the listed entry removed and every other entry in
    place. *)
Theorem merge_single_index (reference j : Z) rs :
  0 ≤ reference < len rs → 0 ≤ j < len rs →
  merge reference [j] rs = Returns (merge_spec reference [j] rs).
Proof.
  intros Href Hj.
  destruct (index_in_range rs reference) as (a & Ha & _); [done|].
  destruct (index_in_range rs j) as (b & Hb & _); [done|].
  rewrite (merge_one_listed reference j rs a b) by (done || lia).
  pose proof (merge_spec_one_listed (Z.to_nat reference) (Z.to_nat j)
                rs a b Ha Hb) as Hspec.
  rewrite !Z2Nat.id in Hspec by lia. by rewrite Hspec.
Qed.

(** X2: [Add] of a region that no stored region overlaps appends it to the
    stored sequence and calls the callbacks. *)
Theorem Add_appends_when_apart (r2 : Region) r tr :
  (∀ x, x ∈ regions r → overlapping r2 x = false) →
  Add r2 r tr
  = Returns (set_regions r (regions r ++ [r2]),
             tr ++ map_to_list (onChangeCallbacks r)).
Proof.
  intros Hnone. unfold Add, Add_locked, overlaps.
  pose proof (len_nonneg (regions r)).
  rewrite overlaps_loop_none by (done || lia). done.
Qed.

(** X3: two overlapping regions added to a new set leave one stored region,
    the cover of the first with the second. *)
Theorem Add_overlapping_pair_covers (x y : Region) (tr : Trace Callback) :
  overlapping y x = true →
  stored (run [Add x; Add y] zero tr) = Returns [Region_Cover x y].
Proof.
  intros Hxy. unfold run, Add, zero, stored. simpl.
  by rewrite Add_locked_second_overlapping.
Qed.

(** X4: every mutating operation returns: it neither panics nor runs forever.
    It keeps the registered callbacks and calls each of them once. *)
Theorem mutators_return_and_call_once r tr :
  let ends_in (o : outcome (RegionSet Region Callback * Trace Callback)) :=
    ∃ rs', o = Returns (set_regions r rs',
                        tr ++ map_to_list (onChangeCallbacks r)) in
  ends_in (Clear r tr)
  ∧ (∀ r2 : Region, ends_in (Add r2 r tr))
  ∧ (∀ rs, ends_in (AddAll rs r tr))
  ∧ (∀ r2 : Region, ends_in (Subtract r2 r tr))
  ∧ (∀ position delta, ends_in (Adjust position delta r tr)).
Proof.
  simpl. split; [|split; [|split; [|split]]].
  - apply (flush_returns (set_regions r (take 0 (regions r)))).
  - intros r2. apply Add_returns.
  - intros rs. apply AddAll_returns.
  - intros r2. unfold Subtract, Cut. rewrite Cut_outer_AddEach.
    destruct (AddEach_without_callbacks (remainders r2 (regions r)) zero tr)
      as (ret & -> & _); [done|].
    by exists (regions ret).
  - intros position delta.
    apply (flush_returns
             (set_regions r
                ((λ x, Region_Adjust x position delta) <$> regions r))).
Qed.

(** X5: [AddOnChange] registers the callback under its key, replacing what was
    there, and [ClearOnChange] removes the key; other keys and the stored
    regions are left alone. *)
Theorem callbacks_registry (key : string) (cb : Callback) r :
  onChangeCallbacks (AddOnChange key cb r) !! key = Some cb
  ∧ onChangeCallbacks (ClearOnChange key r) !! key = None
  ∧ (∀ other, other ≠ key →
       onChangeCallbacks (AddOnChange key cb r) !! other
       = onChangeCallbacks r !! other
       ∧ onChangeCallbacks (ClearOnChange key r) !! other
         = onChangeCallbacks r !! other)
  ∧ regions (AddOnChange key cb r) = regions r
  ∧ regions (ClearOnChange key r) = regions r.
Proof.
  unfold AddOnChange, ClearOnChange. simpl.
  split; [apply lookup_insert_eq|]. split; [apply lookup_delete_eq|].
  split; [|done]. intros other Hne.
  by rewrite lookup_insert_ne, lookup_delete_ne.
Qed.

End RegionSetClaims.

(** ** The concrete regions *)

Section IntervalFacts.

Implicit Types (x y : Interval.Region).

Lemma Cover_same x : Interval.Cover x x = x.
Proof.
  destruct x as [a b]. unfold Interval.Cover, Interval.Begin, Interval.End.
  simpl. case_decide; f_equal; lia.
Qed.

Lemma touching_not_overlapping x y :
  Interval.Empty x = false → Interval.touching x y →
  overlapping y x = false.
Proof.
  destruct x as [a b], y as [c d].
  unfold overlapping, Interval.Empty, Interval.touching. simpl.
  unfold Interval.Intersects, Interval.Covers, Interval.Contains,
    Interval.Begin, Interval.End. simpl.
  intros Hx%bool_decide_eq_false Hadj.
  apply orb_false_iff; split; [apply orb_false_iff; split|].
  - apply bool_decide_eq_false. intros [= -> ->]. lia.
  - apply orb_false_iff; split; apply bool_decide_eq_false.
    + intros [= -> ->]. lia.
    + lia.
  - apply andb_false_iff.
    destruct (decide (Z.min c d ≤ Z.min a b ≤ Z.max c d)) as [Hin|Hout].
    + right. apply bool_decide_eq_false. lia.
    + left. by apply bool_decide_eq_false.
Qed.

Lemma touching_empty_overlapping x y :
  Interval.Empty x = true → Interval.touching x y →
  overlapping y x = true
  ∧ Interval.Cover x y = Interval.mk (Interval.Begin y) (Interval.End y).
Proof.
  destruct x as [a b], y as [c d].
  unfold overlapping, Interval.Empty, Interval.touching. simpl.
  unfold Interval.Cover, Interval.Covers, Interval.Contains,
    Interval.Begin, Interval.End. simpl.
  intros Hx%bool_decide_eq_true Hadj. subst b. split.
  - apply orb_true_iff. right. apply andb_true_iff.
    split; apply bool_decide_eq_true; lia.
  - rewrite decide_True by lia. f_equal; lia.
Qed.

Lemma mk_eq_iff (a b c d : Z) :
  Interval.mk a b = Interval.mk c d ↔ a = c ∧ b = d.
Proof. split; [by intros [= -> ->] | by intros [-> ->]]. Qed.

Lemma Intersects_sym x y : Interval.Intersects x y = Interval.Intersects y x.
Proof.
  unfold Interval.Intersects. f_equal.
  - apply bool_decide_ext. split; congruence.
  - apply bool_decide_ext. lia.
Qed.

Lemma hull_apart (bx ex b2 e2 by_ ey : Z) :
  bx ≤ ex → b2 ≤ e2 → by_ ≤ ey →
  (b2 = bx ∧ e2 = ex) ∨ Z.max b2 bx < Z.min e2 ex
    ∨ (b2 ≤ bx ≤ e2 ∧ ex ≤ e2) →
  ¬ (Z.max bx by_ < Z.min ex ey) →
  ¬ (Z.max b2 by_ < Z.min e2 ey) →
  ¬ (b2 ≤ by_ ≤ e2 ∧ ey ≤ e2) →
  ¬ (Z.min bx b2 = by_ ∧ Z.max ex e2 = ey)
  ∧ ¬ (Z.max (Z.min bx b2) by_ < Z.min (Z.max ex e2) ey).
Proof.
  rewrite !Z.max_lub_lt_iff, !Z.min_glb_lt_iff.
  intros Hx H2 Hy Hov Hxy H2y Hcov.
  destruct (Z.min_spec bx b2) as [[_ ->]|[_ ->]];
    destruct (Z.max_spec ex e2) as [[_ ->]|[_ ->]]; lia.
Qed.

Lemma Begin_le_End x : Interval.Begin x ≤ Interval.End x.
Proof. unfold Interval.Begin, Interval.End. lia. Qed.

Lemma Begin_Cover x r2 :
  Interval.Begin (Interval.Cover x r2)
  = Z.min (Interval.Begin x) (Interval.Begin r2).
Proof.
  pose proof (Begin_le_End x). pose proof (Begin_le_End r2).
  unfold Interval.Cover. case_decide; unfold Interval.Begin at 1; simpl; lia.
Qed.

Lemma End_Cover x r2 :
  Interval.End (Interval.Cover x r2)
  = Z.max (Interval.End x) (Interval.End r2).
Proof.
  pose proof (Begin_le_End x). pose proof (Begin_le_End r2).
  unfold Interval.Cover. case_decide; unfold Interval.End at 1; simpl; lia.
Qed.

Lemma Intersects_false x y :
  Interval.Intersects x y = false ↔
  x ≠ y ∧ ¬ (Z.max (Interval.Begin x) (Interval.Begin y)
             < Z.min (Interval.End x) (Interval.End y)).
Proof.
  unfold Interval.Intersects.
  by rewrite orb_false_iff, !bool_decide_eq_false.
Qed.

Lemma overlapping_true r2 x :
  overlapping r2 x = true →
  (Interval.Begin r2 = Interval.Begin x ∧ Interval.End r2 = Interval.End x)
  ∨ Z.max (Interval.Begin r2) (Interval.Begin x)
    < Z.min (Interval.End r2) (Interval.End x)
  ∨ (Interval.Begin r2 ≤ Interval.Begin x ≤ Interval.End r2
     ∧ Interval.End x ≤ Interval.End r2).
Proof.
  unfold overlapping. simpl.
  unfold Interval.Intersects, Interval.Covers, Interval.Contains.
  rewrite !orb_true_iff, andb_true_iff, !bool_decide_eq_true.
  intros [[->|[->|Hlt]]|Hcov]; auto.
Qed.

Lemma overlapping_false r2 y :
  overlapping r2 y = false →
  ¬ (Z.max (Interval.Begin r2) (Interval.Begin y)
     < Z.min (Interval.End r2) (Interval.End y))
  ∧ ¬ (Interval.Begin r2 ≤ Interval.Begin y ≤ Interval.End r2
       ∧ Interval.End y ≤ Interval.End r2).
Proof.
  unfold overlapping. simpl.
  unfold Interval.Intersects, Interval.Covers, Interval.Contains.
  rewrite !orb_false_iff, andb_false_iff, !bool_decide_eq_false.
  intros [[_ [_ Hlt]] Hcov]. split; [done|]. intros [Hin Hle].
  destruct Hcov as [Hcov|Hcov]; by apply Hcov.
Qed.

Lemma Cover_stays_apart x r2 y :
  overlapping r2 x = true → Interval.Intersects x y = false →
  overlapping r2 y = false →
  Interval.Intersects (Interval.Cover x r2) y = false.
Proof.
  intros Hov%overlapping_true [_ Hxy]%Intersects_false
    [Hr2y Hcov]%overlapping_false.
  destruct (hull_apart (Interval.Begin x) (Interval.End x)
              (Interval.Begin r2) (Interval.End r2)
              (Interval.Begin y) (Interval.End y)) as [Hne Hlt];
    try done; try apply Begin_le_End.
  apply Intersects_false. rewrite Begin_Cover, End_Cover. split; [|done].
  intros Heq. apply Hne.
  by rewrite <- Begin_Cover, <- End_Cover, Heq.
Qed.

Lemma not_overlapping_apart r2 y :
  overlapping r2 y = false →
  Interval.Intersects r2 y = false ∧ Interval.Intersects y r2 = false.
Proof.
  unfold overlapping. simpl. rewrite !orb_false_iff.
  intros [[_ Hi] _]. by rewrite (Intersects_sym y r2).
Qed.

Lemma pairwise_apart_snoc (rs : list Interval.Region) r2 :
  pairwise_apart rs → (∀ y, y ∈ rs → overlapping r2 y = false) →
  pairwise_apart (rs ++ [r2]).
Proof.
  intros Hrs Hnone i j x y Hij Hi Hj.
  apply lookup_app_Some in Hi as [Hi|[Hilen Hi]];
    apply lookup_app_Some in Hj as [Hj|[Hjlen Hj]].
  - by apply (Hrs i j).
  - apply list_lookup_singleton_Some in Hj as [_ <-].
    apply (not_overlapping_apart r2 x), Hnone.
    by eapply list_elem_of_lookup_2.
  - apply list_lookup_singleton_Some in Hi as [_ <-].
    apply (not_overlapping_apart r2 y), Hnone.
    by eapply list_elem_of_lookup_2.
  - apply list_lookup_singleton_Some in Hi as [Hi _].
    apply list_lookup_singleton_Some in Hj as [Hj _]. lia.
Qed.

Lemma pairwise_apart_cover (rs : list Interval.Region) (k : nat) x r2 :
  pairwise_apart rs → rs !! k = Some x → overlapping r2 x = true →
  (∀ j y, j ≠ k → rs !! j = Some y → overlapping r2 y = false) →
  pairwise_apart (<[k := Interval.Cover x r2]> rs).
Proof.
  intros Hrs Hk Hov Hothers i j x' y' Hij Hi Hj.
  apply list_lookup_insert_Some in Hi as [(<- & <- & _)|[Hik Hi]];
    apply list_lookup_insert_Some in Hj as [(Hjk & <- & _)|[Hjk Hj]].
  - done.
  - apply Cover_stays_apart; [done | by apply (Hrs k j) | by apply (Hothers j)].
  - subst j. rewrite Intersects_sym.
    apply Cover_stays_apart; [done | by apply (Hrs k i) | by apply (Hothers i)].
  - by apply (Hrs i j).
Qed.

Lemma Add_same_twice x :
  stored (run [Add x; Add x] new_set []) = Returns [x].
Proof.
  unfold run, Add, new_set, zero, stored. simpl.
  rewrite Add_locked_second_overlapping.
  - simpl. change (Region_Cover x x) with (Interval.Cover x x).
    by rewrite Cover_same.
  - unfold overlapping. by rewrite bool_decide_eq_true_2.
Qed.

Lemma Add_overlapping x y :
  overlapping y x = true →
  stored (run [Add x; Add y] new_set []) = Returns [Interval.Cover x y].
Proof.
  intros Hxy. unfold run, Add, new_set, zero, stored. simpl.
  by rewrite Add_locked_second_overlapping.
Qed.

Lemma Add_not_overlapping x y :
  overlapping y x = false →
  stored (run [Add x; Add y] new_set []) = Returns [x; y].
Proof.
  intros Hxy. unfold run, Add, new_set, zero, stored. simpl.
  by rewrite Add_locked_second_apart.
Qed.

(** X6: when the stored regions do not intersect one another and at most
    one of them overlaps the region added, [Add] returns and the stored
    regions still do not intersect one another. *)
Theorem Add_keeps_regions_apart (r2 : Interval.Region)
    (r : RegionSet Interval.Region nat) (tr : Trace nat) :
  pairwise_apart (regions r) → at_most_one_overlap r2 (regions r) →
  ∃ r' tr', Add r2 r tr = Returns (r', tr') ∧ pairwise_apart (regions r').
Proof.
  intros Hapart Hone. unfold Add, Add_locked.
  set (rs := regions r) in *.
  destruct (overlaps_elems rs r2) as (ov & -> & Hasc & Helems). simpl.
  destruct ov as [|k [|k' ov]].
  - eexists _, _. split; [done|]. simpl.
    apply pairwise_apart_snoc; [done|].
    intros y [j Hj]%list_elem_of_lookup_1.
    destruct (overlapping r2 y) eqn:Hov; [|done].
    assert (Hin : Z.of_nat j ∈ ([] : list Z)).
    { apply Helems. split; [lia|]. exists y. by rewrite Nat2Z.id. }
    by apply elem_of_nil in Hin.
  - destruct (proj1 (Helems k)) as (Hk & x & Hx & Hov); [by left|].
    pose proof (lookup_lt_Some _ _ _ Hx) as Hklt.
    change ([] ++ [len (rs ++ [r2]) - 1]) with [len (rs ++ [r2]) - 1].
    rewrite (merge_one_listed k _ (rs ++ [r2]) x r2).
    + eexists _, _. split; [done|]. simpl.
      unfold store. rewrite insert_app_l by done.
      replace (Z.to_nat (len (rs ++ [r2]) - 1))
        with (length (<[Z.to_nat k := Region_Cover x r2]> rs)).
      * rewrite delete_middle, app_nil_r.
        apply pairwise_apart_cover; [done | done | done |].
        intros j y Hjk Hj.
        destruct (overlapping r2 y) eqn:Hovy; [|done].
        assert (Hin : Z.of_nat j ∈ [k]).
        { apply Helems. split; [lia|]. exists y. by rewrite Nat2Z.id. }
        apply list_elem_of_singleton in Hin. lia.
      * rewrite length_insert, len_app. unfold len. simpl. lia.
    + by apply lookup_app_l_Some.
    + apply list_lookup_middle. rewrite len_app. unfold len. simpl. lia.
    + done.
    + rewrite len_app. unfold len. simpl. lia.
  - destruct (proj1 (Helems k)) as (Hk & x & Hx & Hov); [by left|].
    destruct (proj1 (Helems k')) as (Hk' & y & Hy & Hovy);
      [by right; left|].
    simpl in Hasc.
    pose proof (Hone _ _ _ _ Hx Hy Hov Hovy). lia.
Qed.

End IntervalFacts.

(** ** The scenarios of the specification *)

Section Scenarios.

(** C1: the stored regions [0,2], [3,5], [6,8] do not overlap, and
    [Add([1,4])] leaves [0,5] and [3,5] stored, which intersect and of which
    the first covers the second; [AddAll] of [0,5], [1,6], [2,7] on a new
    set leaves [0,6] and [2,7] stored, which intersect. *)
Theorem overlapping_regions_stay_stored :
  non_overlapping [span 0 2; span 3 5; span 6 8]
  ∧ stored (run [Add (span 0 2); Add (span 3 5); Add (span 6 8)] new_set [])
    = Returns [span 0 2; span 3 5; span 6 8]
  ∧ stored (run [Add (span 0 2); Add (span 3 5); Add (span 6 8);
                 Add (span 1 4)] new_set [])
    = Returns [span 0 5; span 3 5]
  ∧ ¬ non_overlapping [span 0 5; span 3 5]
  ∧ stored (run [AddAll [span 0 5; span 1 6; span 2 7]] new_set [])
    = Returns [span 0 6; span 2 7]
  ∧ ¬ non_overlapping [span 0 6; span 2 7].
Proof.
  split; [|split; [|split; [|split; [|split]]]].
  - intros i j x y Hij Hi Hj.
    destruct i as [|[|[|i]]], j as [|[|[|j]]]; simplify_eq/=; done.
  - vm_compute. reflexivity.
  - vm_compute. reflexivity.
  - intros Hno.
    destruct (Hno 0%nat 1%nat (span 0 5) (span 3 5)) as [Hi _]; done.
  - vm_compute. reflexivity.
  - intros Hno.
    destruct (Hno 0%nat 1%nat (span 0 6) (span 2 7)) as [Hi _]; done.
Qed.

(** C2: [merge(0, [1, 2])] on the four regions [0,2], [3,5], [1,4], [6,8]
    (the call [flush] makes at its third region) leaves [0,5] and [3,5]: the
    listed entry [3,5] stays and the unlisted entry [6,8] is gone, where the
    stated result is [0,5] and [6,8]. *)
Theorem merge_keeps_a_listed_entry :
  merge 0 [1; 2] [span 0 2; span 3 5; span 1 4; span 6 8]
  = Returns [span 0 5; span 3 5]
  ∧ merge_spec 0 [1; 2] [span 0 2; span 3 5; span 1 4; span 6 8]
    = [span 0 5; span 6 8]
  ∧ flush_loop 4 1 [span 0 2; span 3 5; span 1 4; span 6 8]
    = Returns [span 0 5; span 3 5].
Proof.
  rewrite merge_two_of_four, merge_spec_two_of_four.
  split; [|split]; vm_compute; reflexivity.
Qed.

(** C3: on a new set, [AddAll] of [0,5], [1,6], [2,7] leaves [0,6] and [2,7]
    stored, while [Add] of the three, one after the other, leaves [0,7]:
    the two results are not the same multiset. *)
Theorem AddAll_differs_from_three_Adds :
  stored (run [AddAll [span 0 5; span 1 6; span 2 7]] new_set [])
  = Returns [span 0 6; span 2 7]
  ∧ stored (run [Add (span 0 5); Add (span 1 6); Add (span 2 7)] new_set [])
    = Returns [span 0 7]
  ∧ ¬ Permutation [span 0 6; span 2 7] [span 0 7].
Proof.
  split; [|split].
  - vm_compute. reflexivity.
  - vm_compute. reflexivity.
  - intros Hperm. apply Permutation_length in Hperm. discriminate Hperm.
Qed.

(** C4: from a new set, [Add([1,3])], [Add([5,8])], [Add([2,6])] leave
    exactly [1,8] stored; [Subtract([4,5])] after them leaves exactly [1,4]
    and [5,8]. *)
Theorem add_three_then_subtract :
  stored (run [Add (span 1 3); Add (span 5 8); Add (span 2 6)] new_set [])
  = Returns [span 1 8]
  ∧ stored (run [Add (span 1 3); Add (span 5 8); Add (span 2 6);
                 Subtract (span 4 5)] new_set [])
    = Returns [span 1 4; span 5 8].
Proof. split; vm_compute; reflexivity. Qed.

(** C5, as stated, fails: the empty region [5,5] and the region [5,7] are
    two regions that share only the end point 5, and [Add([5,5])] followed
    by [Add([5,7])] leaves the single region [5,7]. *)
Lemma empty_region_at_end_point_is_merged :
  span 5 5 ≠ span 5 7
  ∧ Interval.touching (span 5 5) (span 5 7)
  ∧ stored (run [Add (span 5 5); Add (span 5 7)] new_set [])
    = Returns [span 5 7]
  ∧ ¬ (∀ x y, x ≠ y → Interval.touching x y →
         stored (run [Add x; Add y] new_set []) = Returns [x; y]).
Proof.
  assert (Hrun : stored (run [Add (span 5 5); Add (span 5 7)] new_set [])
                 = Returns [span 5 7]) by (vm_compute; reflexivity).
  split; [done|]. split; [by left|]. split; [exact Hrun|].
  intros Hall.
  specialize (Hall (span 5 5) (span 5 7)). rewrite Hrun in Hall.
  discriminate Hall; [done | by left].
Qed.

(** C5, amended: on a new set, adding a region twice (the point region
    [5,5], and any other region) leaves that one region stored; adding a
    region that is not empty and then a region that shares only an end point
    with it ([0,5] then [5,7], and any other such pair) leaves both stored,
    unmerged; an empty region added first is merged into the region added
    next at whose end point it lies. *)
Theorem equal_regions_merge_adjacent_stay :
  stored (run [Add (span 5 5); Add (span 5 5)] new_set [])
  = Returns [span 5 5]
  ∧ stored (run [Add (span 0 5); Add (span 5 7)] new_set [])
    = Returns [span 0 5; span 5 7]
  ∧ (∀ x, stored (run [Add x; Add x] new_set []) = Returns [x])
  ∧ (∀ x y,
       Interval.Empty x = false → Interval.touching x y →
       stored (run [Add x; Add y] new_set []) = Returns [x; y])
  ∧ (∀ x y,
       Interval.Empty x = true → Interval.touching x y →
       stored (run [Add x; Add y] new_set [])
       = Returns [span (Interval.Begin y) (Interval.End y)]).
Proof.
  split; [|split; [|split; [|split]]].
  - apply Add_same_twice.
  - apply Add_not_overlapping. reflexivity.
  - apply Add_same_twice.
  - intros x y Hx Hadj.
    by apply Add_not_overlapping, touching_not_overlapping.
  - intros x y Hx Hadj.
    destruct (touching_empty_overlapping x y Hx Hadj) as [Hov Hcover].
    unfold span. rewrite <- Hcover. by apply Add_overlapping.
Qed.

Lemma equal_regions_merge_adjacent_stay_witness :
  stored (run [Add (span 5 7); Add (span 0 5)] new_set [])
  = Returns [span 5 7; span 0 5].
Proof.
  apply (proj1 (proj2 (proj2 (proj2 equal_regions_merge_adjacent_stay)))).
  - reflexivity.
  - right. reflexivity.
Defined.

Lemma Clear_and_AddAll_call_once_witness :
  ∃ evs, Clear (mkRegionSet ([] : list Interval.Region)
                  (<["cursor" := 7%nat]> ∅)) []
         = Returns (mkRegionSet [] (<["cursor" := 7%nat]> ∅), [] ++ evs)
         ∧ called_once (<["cursor" := 7%nat]> ∅) evs.
Proof.
  exact (proj1 (Clear_and_AddAll_call_once (Region := Interval.Region))
           (mkRegionSet [] (<["cursor" := 7%nat]> ∅)) [] eq_refl).
Defined.

Lemma Get_in_range_or_panics_witness :
  (∃ x, [span 1 4; span 5 8] !! Z.to_nat 1 = Some x
        ∧ Get (mkRegionSet [span 1 4; span 5 8] (∅ : gmap string nat)) 1
          = Returns x)
  ∧ Get (mkRegionSet [span 1 4; span 5 8] (∅ : gmap string nat)) 2 = Panics.
Proof.
  split.
  - apply (proj1 (Get_in_range_or_panics
                    (mkRegionSet [span 1 4; span 5 8] ∅) 1)).
    unfold Len, len. simpl. lia.
  - apply (proj2 (Get_in_range_or_panics
                    (mkRegionSet [span 1 4; span 5 8] ∅) 2)).
    unfold Len, len. simpl. lia.
Defined.

Lemma HasNonEmpty_HasEmpty_independent_witness :
  HasNonEmpty new_set = false ∧ HasEmpty new_set = false.
Proof.
  apply (proj1 HasNonEmpty_HasEmpty_independent new_set). reflexivity.
Defined.

Lemma merge_single_index_witness :
  merge 0 [1] [span 0 5; span 1 6; span 2 7]
  = Returns [span 0 6; span 2 7].
Proof.
  rewrite (merge_single_index 0 1 [span 0 5; span 1 6; span 2 7]).
  - vm_compute. reflexivity.
  - unfold len. simpl. lia.
  - unfold len. simpl. lia.
Defined.

Lemma Add_appends_when_apart_witness :
  Add (span 5 7) (mkRegionSet [span 0 5] (∅ : gmap string nat)) []
  = Returns (mkRegionSet [span 0 5; span 5 7] ∅, []).
Proof.
  rewrite (Add_appends_when_apart (span 5 7) (mkRegionSet [span 0 5] ∅) []).
  - vm_compute. reflexivity.
  - intros x Hx. apply list_elem_of_singleton in Hx. subst x. reflexivity.
Defined.

Lemma Add_overlapping_pair_covers_witness :
  stored (run [Add (span 1 3); Add (span 2 6)] new_set [])
  = Returns [span 1 6].
Proof.
  exact (Add_overlapping_pair_covers (Callback := nat)
           (span 1 3) (span 2 6) [] eq_refl).
Defined.

Lemma Add_keeps_regions_apart_witness :
  ∃ r' tr',
    Add (span 1 4) (mkRegionSet [span 0 2; span 6 8] (∅ : gmap string nat)) []
    = Returns (r', tr')
    ∧ pairwise_apart (regions r').
Proof.
  apply (Add_keeps_regions_apart (span 1 4)
           (mkRegionSet [span 0 2; span 6 8] ∅) []).
  - intros i j x y Hij Hi Hj.
    destruct i as [|[|i]], j as [|[|j]]; simplify_eq/=; done.
  - intros i j x y Hi Hj Hx Hy.
    destruct i as [|[|i]], j as [|[|j]]; simplify_eq/=; done.
Defined.

End Scenarios.

(** ** Further properties of the operations *)

Section RegionSetMore.

Context {Region : Type} `{EqDecision Region} `{RegionOps Region}.
Context {Callback : Type}.

Implicit Types (rs batch : list Region) (m ov : list Z).
Implicit Types (r : RegionSet Region Callback) (tr : Trace Callback).

(** *** [overlaps] *)

Lemma overlaps_loop_panics rs (reference : Region) n i ret :
  (0 < n)%nat → i < 0 ∨ len rs < i + Z.of_nat n →
  overlaps_loop rs reference n i ret = Panics.
Proof.
  revert i ret. induction n as [|n IH]; intros i ret Hn Hout; [lia|].
  simpl. destruct (decide (0 ≤ i < len rs)) as [Hin|Hnot].
  - destruct (index_in_range rs i) as (x & _ & ->); [done|]. simpl.
    apply IH; lia.
  - by rewrite index_out_of_range.
Qed.

Lemma overlaps_loop_app rs extra (reference : Region) n i ret :
  0 ≤ i → i + Z.of_nat n ≤ len rs →
  overlaps_loop (rs ++ extra) reference n i ret
  = overlaps_loop rs reference n i ret.
Proof.
  revert i ret. induction n as [|n IH]; intros i ret Hi Hn; simpl; [done|].
  destruct (index_in_range rs i) as (x & Hx & ->); [lia|].
  destruct (index_in_range (rs ++ extra) i) as (x' & Hx' & ->).
  { rewrite len_app. pose proof (len_nonneg extra). lia. }
  rewrite lookup_app_l in Hx' by (by eapply lookup_lt_Some).
  rewrite Hx in Hx'. injection Hx' as <-. simpl. apply IH; lia.
Qed.

Lemma overlaps_app rs extra (reference : Region) e :
  0 ≤ e ≤ len rs →
  overlaps (rs ++ extra) reference 0 e = overlaps rs reference 0 e.
Proof. intros He. unfold overlaps. apply overlaps_loop_app; lia. Qed.

Lemma overlaps_none rs (reference : Region) e :
  0 ≤ e ≤ len rs →
  (∀ j x, (j < Z.to_nat e)%nat → rs !! j = Some x →
     overlapping reference x = false) →
  overlaps rs reference 0 e = Returns [].
Proof.
  intros He Hnone. unfold overlaps.
  destruct (overlaps_loop_elems rs reference (Z.to_nat (e - 0)) 0 [])
    as (ov & -> & _ & Helems); [lia | lia |].
  destruct ov as [|j ov]; [done|].
  destruct (proj1 (Helems j)) as (Hj & x & Hx & Hov); [by left|].
  rewrite (Hnone (Z.to_nat j) x) in Hov; [done | lia | done].
Qed.

(** X7: on a range inside the sequence [overlaps] returns the indices of
    the range whose region is equal to, intersects or is covered by the
    reference, each once and in ascending order; it returns nothing on an
    empty range, and it panics when a range that is not empty starts below
    0 or ends beyond the sequence. *)
Theorem overlaps_exact rs (reference : Region) (start end_ : Z) :
  (0 ≤ start → end_ ≤ len rs →
     ∃ ov, overlaps rs reference start end_ = Returns ov
           ∧ asc start ov end_
           ∧ ∀ j, j ∈ ov ↔
                  start ≤ j < end_
                  ∧ ∃ x, rs !! Z.to_nat j = Some x
                         ∧ overlapping reference x = true)
  ∧ (end_ ≤ start → overlaps rs reference start end_ = Returns [])
  ∧ (start < end_ → start < 0 ∨ len rs < end_ →
       overlaps rs reference start end_ = Panics).
Proof.
  unfold overlaps. split; [|split].
  - intros Hstart Hend.
    destruct (decide (start ≤ end_)) as [Hle|Hgt].
    + destruct (overlaps_loop_elems rs reference
                  (Z.to_nat (end_ - start)) start [])
        as (ov & -> & Hasc & Helems); [lia | lia |].
      replace (start + Z.of_nat (Z.to_nat (end_ - start))) with end_
        in * by lia.
      by exists ov.
    + replace (Z.to_nat (end_ - start)) with 0%nat by lia.
      exists []. split; [done|]. split; [done|].
      intros j. split; [by intros ?%elem_of_nil | lia].
  - intros Hle. by replace (Z.to_nat (end_ - start)) with 0%nat by lia.
  - intros Hlt Hout. apply overlaps_loop_panics; lia.
Qed.

(** *** [merge]: the first loop *)

Lemma cover_all_store rs (reference lo hi : Z) (c a : Region) m :
  0 ≤ reference < lo → asc lo m hi →
  cover_all (store rs reference c) a m = cover_all rs a m.
Proof.
  intros Href. revert a lo Href.
  induction m as [|j m IH]; intros a lo Href Hm; [done|].
  destruct Hm as [Hj Hm]. unfold cover_all, store in *. simpl.
  rewrite list_lookup_insert_ne by lia.
  apply (IH _ (j + 1)); [lia | done].
Qed.

Lemma merge_cover_exact (reference lo : Z) m rs (a : Region) :
  0 ≤ reference < lo → asc lo m (len rs) →
  rs !! Z.to_nat reference = Some a →
  merge_cover reference m rs
  = Returns (store rs reference (cover_all rs a m)).
Proof.
  intros Href. revert rs a lo Href.
  induction m as [|j m IH]; intros rs a lo Href Hm Ha.
  - simpl. unfold store. by rewrite list_insert_id.
  - destruct Hm as [Hj Hm]. cbn [merge_cover].
    pose proof (lookup_lt_Some _ _ _ Ha) as Hlt.
    destruct (index_in_range rs reference) as (a' & Ha' & ->).
    { unfold len. lia. }
    destruct (index_in_range rs j) as (b & Hb & ->); [lia|].
    rewrite Ha in Ha'. injection Ha' as <-. simpl.
    rewrite (IH _ (Region_Cover a b) (j + 1)).
    + f_equal. unfold store at 1 2. rewrite list_insert_insert_eq.
      fold (store rs reference (Region_Cover a b)).
      rewrite (cover_all_store rs reference (j + 1) (len rs)) by (lia || done).
      unfold cover_all at 2. simpl. by rewrite Hb.
    + lia.
    + by rewrite len_store.
    + unfold store. by apply list_lookup_insert_eq.
Qed.

Lemma merge_cover_panics (reference : Z) m rs :
  (m ≠ [] ∧ ¬ (0 ≤ reference < len rs))
  ∨ (∃ j, j ∈ m ∧ ¬ (0 ≤ j < len rs)) →
  merge_cover reference m rs = Panics.
Proof.
  revert rs. induction m as [|j m IH]; intros rs Hbad.
  - destruct Hbad as [[Hne _]|(j & Hj & _)]; [done|].
    by apply elem_of_nil in Hj.
  - cbn [merge_cover].
    destruct (decide (0 ≤ reference < len rs)) as [Href|Href];
      [|rewrite (index_out_of_range rs reference) by done; reflexivity].
    destruct (index_in_range rs reference) as (a & _ & ->); [done|].
    destruct (decide (0 ≤ j < len rs)) as [Hj|Hj];
      [|rewrite (index_out_of_range rs j) by done; reflexivity].
    destruct (index_in_range rs j) as (b & _ & ->); [done|]. simpl.
    apply IH. rewrite len_store. right.
    destruct Hbad as [[_ Hbad]|(k & Hk & Hbad)]; [done|].
    apply elem_of_cons in Hk as [->|Hk]; [done|]. by exists k.
Qed.

(** *** [merge]: the second loop leaves the entries before the first listed
    index alone *)

Lemma slice_copy_prefix (s : list Region) (d lo hi p : Z) :
  0 ≤ p ≤ d → d ≤ len s → 0 ≤ lo ≤ hi → hi ≤ len s →
  ∃ s', slice_copy s d lo hi = Returns s' ∧ len s' = len s
        ∧ take (Z.to_nat p) s' = take (Z.to_nat p) s.
Proof.
  intros Hp Hd Hlo Hhi.
  destruct (slice_copy_returns s d lo hi) as (s' & Hrun & Hlen);
    [lia | done | done |].
  exists s'. split; [done|]. split; [done|].
  unfold slice_copy in Hrun. rewrite decide_True in Hrun by lia.
  injection Hrun as <-.
  rewrite take_app_le; [|rewrite length_take; unfold len in *; lia].
  rewrite take_take. f_equal. lia.
Qed.

Lemma merge_shift_prefix m pre todo rs (p : Z) :
  m = pre ++ todo → 0 ≤ p → asc (p + len pre) todo (len rs) →
  ∃ rs', merge_shift m (len m - 1) todo (len pre) (len pre) rs = Returns rs'
         ∧ len rs' = len rs
         ∧ take (Z.to_nat p) rs' = take (Z.to_nat p) rs.
Proof.
  revert pre rs. induction todo as [|j1 todo IH]; intros pre rs Hm Hp Hasc.
  - by exists rs.
  - simpl in Hasc. destruct Hasc as [Hj1 Hasc].
    pose proof (len_nonneg pre) as Hpre.
    cbn [merge_shift].
    set (j2 := if decide (len pre < len m - 1)
               then nth (Z.to_nat (len pre + 1)) m 0 - 1
               else len rs - len pre).
    assert (Hj2 : j2 ≤ len rs).
    { subst j2. case_decide as Hl; [|lia].
      destruct todo as [|j' rest].
      - subst m. rewrite len_app, len_cons in Hl. unfold len in Hl.
        simpl in Hl. lia.
      - subst m. rewrite nth_middle_next. simpl in Hasc. lia. }
    assert (Hstep : ∃ rs1,
      (if decide (j2 > 0 ∧ j1 + 1 ≤ j2)
       then slice_copy rs (j1 - len pre) (j1 + 1) j2
       else Returns rs) = Returns rs1 ∧ len rs1 = len rs
      ∧ take (Z.to_nat p) rs1 = take (Z.to_nat p) rs).
    { case_decide as Hc; [|by exists rs].
      apply slice_copy_prefix; lia. }
    destruct Hstep as (rs1 & -> & Hlen1 & Htake1). simpl.
    destruct (IH (pre ++ [j1]) rs1) as (rs' & Hrun & Hlen & Htake).
    + by rewrite <- app_assoc.
    + done.
    + rewrite len_app, Hlen1. change (len [j1]) with 1.
      eapply asc_weaken; [| |exact Hasc]; lia.
    + rewrite len_app in Hrun. change (len [j1]) with 1 in Hrun.
      exists rs'. split; [exact Hrun|]. split; [lia | congruence].
Qed.

Lemma merge_prefix (reference p : Z) m rs (a : Region) :
  0 ≤ reference < p → p ≤ len rs → asc p m (len rs) →
  rs !! Z.to_nat reference = Some a →
  ∃ rs', merge reference m rs = Returns rs'
         ∧ len rs' = len rs - len m
         ∧ take (Z.to_nat p) rs'
           = take (Z.to_nat p) (store rs reference (cover_all rs a m)).
Proof.
  intros Href Hp Hm Ha. unfold merge.
  rewrite (merge_cover_exact reference p m rs a) by done. simpl.
  set (rs1 := store rs reference (cover_all rs a m)).
  assert (Hlen1 : len rs1 = len rs) by apply len_store.
  destruct (merge_shift_prefix m [] m rs1 p) as (rs2 & Hrun & Hlen2 & Htake);
    [done | lia | |].
  { change (len []) with 0. rewrite Z.add_0_r, Hlen1. done. }
  change (len []) with 0 in Hrun. rewrite Hrun. simpl.
  pose proof (asc_len _ _ _ Hm) as Hbound.
  pose proof (len_nonneg m).
  rewrite slice_to_returns by lia.
  eexists. split; [done|]. split.
  - unfold len in *. rewrite length_take. lia.
  - rewrite take_take, <- Htake. f_equal. lia.
Qed.

(** X8: [merge] on a reference index and an ascending list of valid indices
    that all lie at or after a position [p] beyond the reference returns a
    sequence shorter by the number of listed indices; its entries before [p]
    are those of the input, with the entry at the reference covered with
    every listed entry in order.  When the listed indices are exactly the
    last positions of the sequence, that is the whole result. *)
Theorem merge_keeps_prefix (reference p : Z) m rs (a : Region) :
  0 ≤ reference < p → p ≤ len rs → asc p m (len rs) →
  rs !! Z.to_nat reference = Some a →
  ∃ rs', merge reference m rs = Returns rs'
         ∧ len rs' = len rs - len m
         ∧ take (Z.to_nat p) rs'
           = take (Z.to_nat p) (store rs reference (cover_all rs a m))
         ∧ (len m = len rs - p →
              rs' = take (Z.to_nat p)
                      (store rs reference (cover_all rs a m))).
Proof.
  intros Href Hp Hm Ha.
  destruct (merge_prefix reference p m rs a) as (rs' & Hrun & Hlen & Htake);
    try done.
  exists rs'. split; [done|]. split; [done|]. split; [done|].
  intros Hall. rewrite <- Htake. symmetry. apply take_ge.
  unfold len in *. lia.
Qed.

(** X9: [merge] with an empty list returns the sequence unchanged, whatever
    the reference index; with a list that is not empty it panics when the
    reference index is outside the sequence, and it panics when a listed
    index is. *)
Theorem merge_edge_cases (reference : Z) m rs :
  merge reference [] rs = Returns rs
  ∧ (m ≠ [] → ¬ (0 ≤ reference < len rs) → merge reference m rs = Panics)
  ∧ (∀ j, j ∈ m → ¬ (0 ≤ j < len rs) → merge reference m rs = Panics).
Proof.
  split; [|split].
  - unfold merge. simpl. change (len []) with 0.
    pose proof (len_nonneg rs).
    rewrite slice_to_returns by lia. f_equal. apply take_ge.
    unfold len. lia.
  - intros Hne Href. unfold merge.
    rewrite merge_cover_panics; [done | by left].
  - intros j Hj Hout. unfold merge.
    rewrite merge_cover_panics; [done | right; by exists j].
Qed.

(** *** [Add] when stored regions overlap the region added *)

Lemma asc_elem lo m hi j : asc lo m hi → j ∈ m → lo ≤ j < hi.
Proof.
  revert lo. induction m as [|k m IH]; intros lo Hm Hj.
  - by apply elem_of_nil in Hj.
  - destruct Hm as [Hk Hm]. apply elem_of_cons in Hj as [->|Hj]; [done|].
    apply IH in Hm; [lia | done].
Qed.

Lemma cover_all_app rs extra (a : Region) lo m :
  0 ≤ lo → asc lo m (len rs) →
  cover_all (rs ++ extra) a m = cover_all rs a m.
Proof.
  intros Hlo. revert a lo Hlo.
  induction m as [|j m IH]; intros a lo Hlo Hm; [done|].
  destruct Hm as [Hj Hm]. unfold cover_all in *. simpl.
  rewrite lookup_app_l by (unfold len in Hj; lia).
  apply (IH _ (j + 1)); [lia | done].
Qed.

Lemma cover_all_snoc rs (r2 a : Region) lo m :
  0 ≤ lo → asc lo m (len rs) →
  cover_all (rs ++ [r2]) a (m ++ [len rs])
  = Region_Cover (cover_all rs a m) r2.
Proof.
  intros Hlo Hm.
  rewrite <- (cover_all_app rs [r2] a lo m) by done.
  unfold cover_all. rewrite foldl_app. simpl.
  unfold len. rewrite Nat2Z.id.
  by rewrite list_lookup_middle.
Qed.

Lemma first_overlap rs (r2 x : Region) (reference : Z) :
  0 ≤ reference → rs !! Z.to_nat reference = Some x →
  overlapping r2 x = true →
  (∀ j y, (j < Z.to_nat reference)%nat → rs !! j = Some y →
     overlapping r2 y = false) →
  ∃ ov', overlaps rs r2 0 (len rs) = Returns (reference :: ov')
         ∧ asc (reference + 1) ov' (len rs)
         ∧ ∀ j, j ∈ ov' ↔
                reference < j
                ∧ ∃ y, rs !! Z.to_nat j = Some y ∧ overlapping r2 y = true.
Proof.
  intros Href Hx Hov Hbefore.
  destruct (overlaps_elems rs r2) as (ov & Hrun & Hasc & Helems).
  assert (Hin : reference ∈ ov) by (apply Helems; eauto).
  destruct ov as [|k ov']; [by apply elem_of_nil in Hin|].
  destruct Hasc as [Hk Hasc].
  assert (k = reference) as ->.
  { destruct (proj1 (Helems k)) as (_ & y & Hy & Hovy); [by left|].
    apply elem_of_cons in Hin as [->|Hin]; [done|].
    pose proof (asc_elem _ _ _ _ Hasc Hin).
    rewrite (Hbefore (Z.to_nat k) y) in Hovy; [done | lia | done]. }
  exists ov'. split; [done|]. split; [done|].
  intros j. split.
  - intros Hj. pose proof (asc_elem _ _ _ _ Hasc Hj).
    split; [lia|]. apply Helems. by right.
  - intros [Hj Hy].
    assert (Hjin : j ∈ reference :: ov') by (apply Helems; split; [lia|done]).
    apply elem_of_cons in Hjin as [->|Hjin]; [lia | done].
Qed.

Lemma Add_locked_first_overlap rs (r2 x : Region) (reference : Z) ov' :
  0 ≤ reference → rs !! Z.to_nat reference = Some x →
  overlaps rs r2 0 (len rs) = Returns (reference :: ov') →
  asc (reference + 1) ov' (len rs) →
  ∃ rs', Add_locked r2 rs = Returns rs'
         ∧ len rs' = len rs - len ov'
         ∧ take (Z.to_nat reference) rs' = take (Z.to_nat reference) rs
         ∧ rs' !! Z.to_nat reference
           = Some (Region_Cover (cover_all rs x ov') r2).
Proof.
  intros Href Hx Hrun Hasc. unfold Add_locked. rewrite Hrun. simpl.
  pose proof (lookup_lt_Some _ _ _ Hx) as Hlt.
  rewrite len_app. change (len [r2]) with 1.
  replace (len rs + 1 - 1) with (len rs) by lia.
  destruct (merge_prefix reference (reference + 1) (ov' ++ [len rs])
              (rs ++ [r2]) x) as (rs' & -> & Hlen & Htake).
  - lia.
  - rewrite len_app. change (len [r2]) with 1. unfold len. lia.
  - rewrite len_app. change (len [r2]) with 1.
    apply (asc_snoc _ _ (len rs)); [done | lia | unfold len; lia].
  - by apply lookup_app_l_Some.
  - rewrite (cover_all_snoc rs r2 x (reference + 1)) in Htake by (lia || done).
    unfold store in Htake. rewrite insert_app_l in Htake by done.
    set (c := Region_Cover (cover_all rs x ov') r2) in *.
    assert (Hlen' : len rs' = len rs - len ov').
    { rewrite !len_app in Hlen. change (len [r2]) with 1 in Hlen.
      change (len [len rs]) with 1 in Hlen. lia. }
    pose proof (asc_len _ _ _ Hasc) as Hbound.
    exists rs'. split; [done|]. split; [done|].
    replace (Z.to_nat (reference + 1)) with (S (Z.to_nat reference))
      in Htake by lia.
    rewrite take_app_le in Htake by (rewrite length_insert; lia).
    split.
    + apply (f_equal (take (Z.to_nat reference))) in Htake.
      rewrite !take_take in Htake.
      rewrite !Nat.min_l in Htake by lia.
      rewrite Htake. apply take_insert_ge. lia.
    + apply (f_equal (λ l, l !! Z.to_nat reference)) in Htake.
      rewrite !lookup_take_lt in Htake by lia.
      rewrite Htake. by apply list_lookup_insert_eq.
Qed.

(** X10: when a stored region overlaps the region added, [Add] leaves the
    stored regions before the first overlapping one as they were, puts in
    its place its cover with the other overlapping regions, in order, and
    with the added region, and stores one region less for each further
    overlapping region. *)
Theorem Add_covers_into_first_overlap (r2 x : Region) r tr (reference : Z) :
  0 ≤ reference → regions r !! Z.to_nat reference = Some x →
  overlapping r2 x = true →
  (∀ j y, (j < Z.to_nat reference)%nat → regions r !! j = Some y →
     overlapping r2 y = false) →
  ∃ ov' rs',
    Add r2 r tr
    = Returns (set_regions r rs', tr ++ map_to_list (onChangeCallbacks r))
    ∧ asc (reference + 1) ov' (Len r)
    ∧ (∀ j, j ∈ ov' ↔
            reference < j
            ∧ ∃ y, regions r !! Z.to_nat j = Some y
                   ∧ overlapping r2 y = true)
    ∧ len rs' = Len r - len ov'
    ∧ take (Z.to_nat reference) rs' = take (Z.to_nat reference) (regions r)
    ∧ rs' !! Z.to_nat reference
      = Some (Region_Cover (cover_all (regions r) x ov') r2).
Proof.
  intros Href Hx Hov Hbefore. unfold Len.
  destruct (first_overlap (regions r) r2 x reference)
    as (ov' & Hrun & Hasc & Helems); try done.
  destruct (Add_locked_first_overlap (regions r) r2 x reference ov')
    as (rs' & Hadd & Hlen & Htake & Hat); try done.
  exists ov', rs'. unfold Add. rewrite Hadd. done.
Qed.

(** X11: for a [Region] whose [Cover] contains every point its second
    argument contains, and which contains its own begin and end, the set
    [Contains] a region right after it was added. *)
Theorem Add_then_Contains (r2 : Region) r tr :
  (∀ a b p, Region_Contains b p = true →
     Region_Contains (Region_Cover a b) p = true) →
  (∀ a, Region_Contains a (Region_Begin a) = true) →
  (∀ a, Region_Contains a (Region_End a) = true) →
  ∃ r' tr', Add r2 r tr = Returns (r', tr') ∧ Contains r' r2 = true.
Proof.
  intros Hcover Hbegin Hend. unfold Add.
  destruct (overlaps_elems (regions r) r2) as (ov & Hrun & Hasc & Helems).
  destruct ov as [|reference ov'].
  - unfold Add_locked. rewrite Hrun. simpl.
    eexists _, _. split; [done|].
    unfold Contains. simpl. apply existsb_exists.
    exists r2. split; [apply in_or_app; right; by left|].
    by rewrite bool_decide_eq_true_2.
  - destruct (proj1 (Helems reference)) as (Href & x & Hx & _); [by left|].
    destruct Hasc as [_ Hasc].
    destruct (Add_locked_first_overlap (regions r) r2 x reference ov')
      as (rs' & -> & _ & _ & Hat); try done.
    simpl. eexists _, _. split; [done|].
    unfold Contains. simpl. apply existsb_exists.
    exists (Region_Cover (cover_all (regions r) x ov') r2).
    split; [by eapply list_elem_of_In, list_elem_of_lookup_2|].
    apply orb_true_iff. right. apply andb_true_iff.
    split; apply Hcover; [apply Hbegin | apply Hend].
Qed.

(** *** [flush] and the loop of [AddAll] *)

Lemma flush_loop_fixpoint fuel i rs :
  no_later_overlap rs → 0 ≤ i → len rs - i ≤ Z.of_nat fuel →
  flush_loop fuel i rs = Returns rs.
Proof.
  intros Hapart. revert i. induction fuel as [|fuel IH]; intros i Hi Hfuel.
  - simpl. by rewrite decide_False by lia.
  - simpl. case_decide as Hlt; [|done].
    destruct (index_in_range rs i) as (x & Hx & ->); [lia|]. simpl.
    rewrite overlaps_none; [simpl; apply IH; lia | lia |].
    intros j y Hj Hy. by apply (Hapart j (Z.to_nat i)).
Qed.

Lemma flush_loop_len fuel i rs :
  0 ≤ i → len rs - i ≤ Z.of_nat fuel →
  ∃ rs', flush_loop fuel i rs = Returns rs'
         ∧ len rs' ≤ len rs ∧ (1 ≤ len rs → 1 ≤ len rs').
Proof.
  revert i rs. induction fuel as [|fuel IH]; intros i rs Hi Hfuel.
  - exists rs. simpl. by rewrite decide_False by lia.
  - simpl. case_decide as Hlt; [|by exists rs].
    destruct (index_in_range rs i) as (x & _ & ->); [lia|]. simpl.
    destruct (overlaps_returns rs x i) as (ov & -> & Hov); [lia|]. simpl.
    destruct ov as [|reference ov'].
    + apply IH; lia.
    + simpl in Hov. destruct Hov as [Href Hov].
      assert (Hm : asc (reference + 1) (ov' ++ [i]) (i + 1))
        by (apply (asc_snoc _ _ i); [done | lia | lia]).
      pose proof (asc_len _ _ _ Hm) as Hbound.
      pose proof (len_nonneg (ov' ++ [i])) as Hnn.
      destruct (merge_returns reference (ov' ++ [i]) rs) as (rs' & -> & Hlen).
      * lia.
      * eapply asc_weaken; [| |apply Hm]; lia.
      * simpl. destruct (IH (i + 1) rs') as (rs2 & -> & Hle & Hge);
          [lia | lia |].
        exists rs2. split; [done|]. split; [lia|]. intros _. apply Hge. lia.
Qed.

Lemma AddAll_loop_len (todo : list Region) start rs :
  0 ≤ start < len rs →
  ∃ rs', AddAll_loop todo start rs = Returns rs'
         ∧ 1 ≤ len rs' ≤ len rs.
Proof.
  revert start rs. induction todo as [|r2 todo IH]; intros start rs Hstart.
  - exists rs. split; [done | lia].
  - simpl.
    destruct (overlaps_returns rs r2 start) as (ov & -> & Hov); [lia|].
    simpl. destruct ov as [|reference ov'].
    + by apply IH.
    + simpl in Hov. destruct Hov as [Href Hov].
      assert (Hm : asc (reference + 1) (ov' ++ [len rs - 1]) (len rs))
        by (replace (len rs) with (len rs - 1 + 1) at 2 by lia;
            apply (asc_snoc _ _ start); [done | lia | lia]).
      pose proof (asc_len _ _ _ Hov) as Hbound.
      pose proof (len_nonneg ov') as Hov'.
      destruct (merge_returns reference (ov' ++ [len rs - 1]) rs)
        as (rs' & -> & Hlen).
      * lia.
      * eapply asc_weaken; [| |apply Hm]; lia.
      * simpl. rewrite len_app in *. change (len [len rs - 1]) with 1 in *.
        destruct (IH (start - (len ov' + 1)) rs') as (rs2 & -> & Hle);
          [lia|].
        exists rs2. split; [done | lia].
Qed.

Lemma AddAll_loop_apart (todo : list Region) start rs :
  0 ≤ start ≤ len rs →
  (∀ y j x, y ∈ todo → (j < Z.to_nat start)%nat → rs !! j = Some x →
     overlapping y x = false) →
  AddAll_loop todo start rs = Returns rs.
Proof.
  intros Hstart. induction todo as [|r2 todo IH]; intros Hapart; [done|].
  simpl. rewrite overlaps_none.
  - simpl. apply IH. intros y j x Hy. apply Hapart. by right.
  - done.
  - intros j x. apply Hapart. by left.
Qed.

(** X12: [AddAll] of a batch of one region does exactly what [Add] of that
    region does: the same stored sequence and the same calls. *)
Theorem AddAll_of_one_is_Add (x : Region) r tr :
  AddAll [x] r tr = Add x r tr.
Proof.
  unfold AddAll, Add, Add_locked, flush. simpl.
  replace (onChange (set_regions (mkRegionSet [x] ∅) [x]) tr) with tr
    by (unfold onChange; simpl; by rewrite map_to_list_empty, app_nil_r).
  rewrite overlaps_app by (pose proof (len_nonneg (regions r)); lia).
  destruct (overlaps (regions r) x 0 (len (regions r))) as [ov| |];
    simpl; [|done|done].
  destruct ov as [|reference ov']; [done|].
  by destruct (merge reference _ _).
Qed.

(** X13: when no region of the batch overlaps an earlier region of the
    batch or a stored region, [AddAll] appends the batch to the stored
    sequence as it is; on an empty batch it leaves the stored sequence
    unchanged.  Either way every registered callback is called. *)
Theorem AddAll_appends_when_apart batch r tr :
  no_later_overlap batch → none_overlaps batch (regions r) →
  AddAll batch r tr
  = Returns (set_regions r (regions r ++ batch),
             tr ++ map_to_list (onChangeCallbacks r)).
Proof.
  intros Hbatch Hnone. unfold AddAll, flush. simpl.
  rewrite flush_loop_fixpoint by (done || lia || unfold len; lia). simpl.
  replace (onChange (set_regions (mkRegionSet batch ∅) batch) tr) with tr
    by (unfold onChange; simpl; by rewrite map_to_list_empty, app_nil_r).
  unfold Regions. simpl.
  rewrite AddAll_loop_apart; [done | |].
  - rewrite len_app. pose proof (len_nonneg (regions r)).
    pose proof (len_nonneg batch). lia.
  - intros y j x Hy Hj Hx. apply Hnone; [done|].
    unfold len in Hj. rewrite lookup_app_l in Hx by lia.
    by eapply list_elem_of_lookup_2.
Qed.

(** X14: when, after every stored region is adjusted, none of them overlaps
    an earlier one, [Adjust] stores exactly the adjusted regions, in their
    order, and calls every registered callback. *)
Theorem Adjust_when_apart (position delta : Z) r tr :
  no_later_overlap ((λ x, Region_Adjust x position delta) <$> regions r) →
  Adjust position delta r tr
  = Returns
      (set_regions r ((λ x, Region_Adjust x position delta) <$> regions r),
       tr ++ map_to_list (onChangeCallbacks r)).
Proof.
  intros Hapart. unfold Adjust, flush. simpl.
  by rewrite flush_loop_fixpoint by (done || lia || unfold len; lia).
Qed.

Lemma AddEach_len (xs : list Region) r tr :
  ∃ r' tr', AddEach xs r tr = Returns (r', tr')
            ∧ Len r' ≤ Len r + len xs
            ∧ (1 ≤ Len r ∨ xs ≠ [] → 1 ≤ Len r').
Proof.
  revert r tr. induction xs as [|x xs IH]; intros r tr.
  - exists r, tr. split; [done|]. change (len []) with 0.
    split; [lia|]. by intros [Hge|Hne].
  - simpl. unfold Add at 1.
    destruct (Add_locked_returns x (regions r)) as (rs' & -> & Hlen). simpl.
    destruct (IH (set_regions r rs') (onChange (set_regions r rs') tr))
      as (r' & tr' & -> & Hle & Hge).
    exists r', tr'. split; [done|]. rewrite len_cons.
    unfold Len in *. simpl in *. split; [lia|].
    intros _. apply Hge. left. lia.
Qed.

(** *** How many regions an operation leaves stored *)

(** X15: [Add] stores at least one region and at most one more than
    before; [AddAll] stores at most as many more as the batch holds, and at
    least one when the batch is not empty; [Adjust] stores no more regions
    than before and never empties a set that stored one; [Subtract] stores
    at most as many regions as there are non-empty remainders. *)
Theorem stored_counts r tr :
  (∀ r2 : Region, ∃ r' tr',
     Add r2 r tr = Returns (r', tr') ∧ 1 ≤ Len r' ≤ Len r + 1)
  ∧ (∀ batch, ∃ r' tr',
       AddAll batch r tr = Returns (r', tr')
       ∧ Len r' ≤ Len r + len batch ∧ (batch ≠ [] → 1 ≤ Len r'))
  ∧ (∀ position delta, ∃ r' tr',
       Adjust position delta r tr = Returns (r', tr')
       ∧ Len r' ≤ Len r ∧ (1 ≤ Len r → 1 ≤ Len r'))
  ∧ (∀ r2 : Region, ∃ r' tr',
       Subtract r2 r tr = Returns (r', tr')
       ∧ Len r' ≤ len (remainders r2 (regions r))).
Proof.
  unfold Len. split; [|split; [|split]].
  - intros r2. unfold Add.
    destruct (Add_locked_returns r2 (regions r)) as (rs' & -> & Hlen).
    by eexists _, _.
  - intros batch. unfold AddAll, flush. simpl.
    destruct (flush_loop_len (length batch) 1 batch)
      as (rs1 & -> & Hle & Hge); [lia | unfold len; lia |].
    simpl. unfold Regions. simpl.
    pose proof (len_nonneg (regions r)) as Hr.
    destruct rs1 as [|x rs1].
    + simpl. rewrite app_nil_r. eexists _, _. split; [done|]. simpl.
      pose proof (len_nonneg batch). split; [lia|]. intros Hne.
      destruct batch; [done|]. rewrite len_cons in Hge.
      pose proof (len_nonneg batch). change (len []) with 0 in Hge. lia.
    + destruct (AddAll_loop_len (x :: rs1) (len (regions r))
                  (regions r ++ x :: rs1)) as (rs2 & -> & Hlen2).
      { rewrite len_app, len_cons. pose proof (len_nonneg rs1). lia. }
      simpl. eexists _, _. split; [done|]. simpl.
      rewrite len_app in Hlen2. split; lia.
  - intros position delta. unfold Adjust, flush. simpl.
    destruct (flush_loop_len
                (length ((λ x, Region_Adjust x position delta) <$> regions r))
                1 ((λ x, Region_Adjust x position delta) <$> regions r))
      as (rs' & -> & Hle & Hge); [lia | unfold len; lia |].
    simpl. eexists _, _. split; [done|]. simpl.
    unfold len in *. rewrite length_fmap in *. done.
  - intros r2. unfold Subtract, Cut. rewrite Cut_outer_AddEach.
    destruct (AddEach_len (remainders r2 (regions r)) zero tr)
      as (r' & tr' & -> & Hle & _).
    simpl. eexists _, _. split; [done|]. simpl.
    unfold Len in Hle. simpl in Hle. change (len []) with 0 in Hle. lia.
Qed.

(** *** The callbacks *)

(** X16: a callback registered with [AddOnChange] is called once, under its
    key, by the next [Add], and no other callback is called under that key;
    after [ClearOnChange] nothing is called under the key.  [ClearOnChange]
    of a key that is not registered changes nothing, it undoes an
    [AddOnChange] of a key that was not registered before, and a second
    [AddOnChange] on a key replaces the first. *)
Theorem callbacks_follow_registry (key : string) (cb : Callback)
    (r2 : Region) r tr :
  (∃ r' evs, Add r2 (AddOnChange key cb r) tr = Returns (r', tr ++ evs)
             ∧ NoDup evs.*1
             ∧ ∀ cb', (key, cb') ∈ evs ↔ cb' = cb)
  ∧ (∃ r' evs, Add r2 (ClearOnChange key r) tr = Returns (r', tr ++ evs)
               ∧ ∀ cb', (key, cb') ∉ evs)
  ∧ (onChangeCallbacks r !! key = None → ClearOnChange key r = r)
  ∧ (onChangeCallbacks r !! key = None →
       ClearOnChange key (AddOnChange key cb r) = r)
  ∧ (∀ cb0, AddOnChange key cb (AddOnChange key cb0 r)
            = AddOnChange key cb r).
Proof.
  split; [|split; [|split; [|split]]].
  - destruct (Add_returns r2 (AddOnChange key cb r) tr) as (rs' & ->).
    eexists _, _. split; [done|]. split; [apply NoDup_fst_map_to_list|].
    intros cb'. rewrite elem_of_map_to_list. simpl.
    rewrite lookup_insert_eq. split; [by intros [= ->] | by intros ->].
  - destruct (Add_returns r2 (ClearOnChange key r) tr) as (rs' & ->).
    eexists _, _. split; [done|].
    intros cb'. rewrite elem_of_map_to_list. simpl.
    by rewrite lookup_delete_eq.
  - intros Hnone. destruct r as [rs cbs]. unfold ClearOnChange. simpl in *.
    by rewrite delete_id.
  - intros Hnone. destruct r as [rs cbs].
    unfold ClearOnChange, AddOnChange. simpl in *.
    by rewrite delete_insert_id.
  - intros cb0. unfold AddOnChange. simpl. by rewrite insert_insert_eq.
Qed.

(** *** [Cut] and [Subtract] when the remainders do not overlap *)

Lemma AddEach_apart (xs : list Region) r tr :
  onChangeCallbacks r = ∅ → no_later_overlap (regions r ++ xs) →
  AddEach xs r tr = Returns (mkRegionSet (regions r ++ xs) ∅, tr).
Proof.
  revert r. induction xs as [|x xs IH]; intros [rs cbs] Hcbs Hapart;
    simpl in *; subst cbs.
  - by rewrite app_nil_r.
  - unfold Add, Add_locked, overlaps. simpl.
    pose proof (len_nonneg rs).
    rewrite overlaps_loop_none; [|lia|lia|].
    + simpl. unfold onChange. simpl.
      rewrite map_to_list_empty, app_nil_r.
      change (set_regions (mkRegionSet rs ∅) (rs ++ [x]))
        with (mkRegionSet (rs ++ [x]) (∅ : gmap string Callback)).
      rewrite (IH (mkRegionSet (rs ++ [x]) ∅)); simpl.
      * by rewrite <- app_assoc.
      * done.
      * by rewrite <- app_assoc.
    + intros y [j Hj]%list_elem_of_lookup_1.
      apply (Hapart j (length rs)).
      * by eapply lookup_lt_Some.
      * by apply lookup_app_l_Some.
      * by apply list_lookup_middle.
Qed.

(** X17: when none of the non-empty remainders overlaps an earlier one,
    [Cut] returns a set that stores exactly these remainders, in their
    order, and [Subtract] leaves exactly them stored; in particular
    [Subtract] on a set that stores nothing leaves it storing nothing. *)
Theorem Cut_when_remainders_apart (r2 : Region) r tr :
  (no_later_overlap (remainders r2 (regions r)) →
     Cut r2 r tr
     = Returns (mkRegionSet (remainders r2 (regions r)) ∅, r, tr)
     ∧ Subtract r2 r tr
       = Returns (set_regions r (remainders r2 (regions r)),
                  tr ++ map_to_list (onChangeCallbacks r)))
  ∧ (regions r = [] →
       Subtract r2 r tr
       = Returns (r, tr ++ map_to_list (onChangeCallbacks r))).
Proof.
  assert (Hcut : no_later_overlap (remainders r2 (regions r)) →
            Cut r2 r tr
            = Returns (mkRegionSet (remainders r2 (regions r)) ∅, r, tr)).
  { intros Hapart. unfold Cut. rewrite Cut_outer_AddEach.
    by rewrite (AddEach_apart _ zero tr). }
  split.
  - intros Hapart. split; [by apply Hcut|].
    unfold Subtract. by rewrite Hcut.
  - intros Hnil. unfold Subtract. rewrite Hcut.
    + destruct r as [rs cbs]. simpl in *. by subst rs.
    + rewrite Hnil. intros j k x y _ Hx. unfold remainders in Hx.
      simpl in Hx. by rewrite lookup_nil in Hx.
Qed.

(** *** [HasEmpty] and [HasNonEmpty] *)

Lemma existsb_false_Forall {A} (f : A → bool) (l : list A) :
  existsb f l = false ↔ Forall (λ x, f x = false) l.
Proof.
  induction l as [|x l IH]; simpl.
  - split; [by constructor | done].
  - rewrite orb_false_iff, Forall_cons, IH. done.
Qed.

(** X18: [HasEmpty] answers the opposite of [HasNonEmpty], as its comment
    says, exactly on the sets that store at least one region and whose
    stored regions are either all empty or all non-empty. *)
Theorem HasEmpty_opposite_iff r :
  HasEmpty r = negb (HasNonEmpty r) ↔
  regions r ≠ []
  ∧ (Forall (λ x, Region_Empty x = true) (regions r)
     ∨ Forall (λ x, Region_Empty x = false) (regions r)).
Proof.
  unfold HasEmpty, HasNonEmpty.
  pose proof (existsb_false_Forall Region_Empty (regions r)) as He.
  pose proof (existsb_false_Forall (λ x, negb (Region_Empty x)) (regions r))
    as Hn.
  assert (Hneg : Forall (λ x, negb (Region_Empty x) = false) (regions r)
                 ↔ Forall (λ x, Region_Empty x = true) (regions r)).
  { apply Forall_iff. intros x. apply negb_false_iff. }
  rewrite Hneg in Hn. clear Hneg.
  destruct (regions r) as [|x l] eqn:Hl.
  - simpl. split; [done | by intros [? _]].
  - rewrite <- Hl in *.
    destruct (existsb Region_Empty (regions r)) eqn:E,
      (existsb (λ x, negb (Region_Empty x)) (regions r)) eqn:N; simpl.
    + split; [done|]. intros [_ [Hall|Hall]].
      * apply Hn in Hall. done.
      * apply He in Hall. done.
    + split; [|done]. intros _. split; [by rewrite Hl|]. left. by apply Hn.
    + split; [|done]. intros _. split; [by rewrite Hl|]. right. by apply He.
    + split; [done|]. intros _.
      assert (Hx : Forall (λ x, Region_Empty x = true) (regions r))
        by by apply Hn.
      assert (Hy : Forall (λ x, Region_Empty x = false) (regions r))
        by by apply He.
      rewrite Hl in Hx, Hy.
      apply Forall_cons in Hx as [Hx _]. apply Forall_cons in Hy as [Hy _].
      congruence.
Qed.

End RegionSetMore.

(** ** The further properties on concrete regions *)

Section MoreScenarios.

Lemma Interval_Cover_contains (a b : Interval.Region) (point : Z) :
  Interval.Contains b point = true →
  Interval.Contains (Interval.Cover a b) point = true.
Proof.
  unfold Interval.Contains. rewrite !bool_decide_eq_true.
  rewrite Begin_Cover, End_Cover. lia.
Qed.

Lemma Interval_Contains_Begin (a : Interval.Region) :
  Interval.Contains a (Interval.Begin a) = true.
Proof.
  unfold Interval.Contains. apply bool_decide_eq_true.
  pose proof (Begin_le_End a). lia.
Qed.

Lemma Interval_Contains_End (a : Interval.Region) :
  Interval.Contains a (Interval.End a) = true.
Proof.
  unfold Interval.Contains. apply bool_decide_eq_true.
  pose proof (Begin_le_End a). lia.
Qed.

Lemma overlaps_exact_witness :
  ∃ ov, overlaps [span 0 2; span 3 5; span 6 8] (span 1 4) 0 3 = Returns ov
        ∧ asc 0 ov 3
        ∧ ∀ j, j ∈ ov ↔
               0 ≤ j < 3
               ∧ ∃ x, [span 0 2; span 3 5; span 6 8] !! Z.to_nat j = Some x
                      ∧ overlapping (span 1 4) x = true.
Proof.
  apply (proj1 (overlaps_exact [span 0 2; span 3 5; span 6 8]
                  (span 1 4) 0 3)).
  - lia.
  - unfold len. simpl. lia.
Defined.

Lemma merge_keeps_prefix_witness :
  ∃ rs', merge 0 [1; 2] [span 1 3; span 5 8; span 2 6] = Returns rs'
         ∧ len rs' = len [span 1 3; span 5 8; span 2 6] - len [1; 2]
         ∧ take (Z.to_nat 1) rs'
           = take (Z.to_nat 1)
               (store [span 1 3; span 5 8; span 2 6] 0
                  (cover_all [span 1 3; span 5 8; span 2 6] (span 1 3)
                     [1; 2]))
         ∧ (len [1; 2] = len [span 1 3; span 5 8; span 2 6] - 1 →
              rs' = take (Z.to_nat 1)
                      (store [span 1 3; span 5 8; span 2 6] 0
                         (cover_all [span 1 3; span 5 8; span 2 6]
                            (span 1 3) [1; 2]))).
Proof.
  apply (merge_keeps_prefix 0 1 [1; 2] [span 1 3; span 5 8; span 2 6]
           (span 1 3)).
  - lia.
  - unfold len. simpl. lia.
  - unfold len. simpl. lia.
  - reflexivity.
Defined.

Lemma merge_edge_cases_witness :
  merge 0 [5] [span 0 1] = Panics.
Proof.
  apply (proj2 (proj2 (merge_edge_cases 0 [5] [span 0 1])) 5).
  - by left.
  - unfold len. simpl. lia.
Defined.

Lemma Add_covers_into_first_overlap_witness :
  ∃ ov' rs',
    Add (span 1 4) (mkRegionSet [span 0 2; span 3 5] (∅ : gmap string nat)) []
    = Returns (set_regions (mkRegionSet [span 0 2; span 3 5] ∅) rs',
               [] ++ map_to_list (∅ : gmap string nat))
    ∧ asc (0 + 1) ov' (Len (mkRegionSet [span 0 2; span 3 5]
                              (∅ : gmap string nat)))
    ∧ (∀ j, j ∈ ov' ↔
            0 < j
            ∧ ∃ y, [span 0 2; span 3 5] !! Z.to_nat j = Some y
                   ∧ overlapping (span 1 4) y = true)
    ∧ len rs' = Len (mkRegionSet [span 0 2; span 3 5] (∅ : gmap string nat))
                - len ov'
    ∧ take (Z.to_nat 0) rs' = take (Z.to_nat 0) [span 0 2; span 3 5]
    ∧ rs' !! Z.to_nat 0
      = Some (Region_Cover (cover_all [span 0 2; span 3 5] (span 0 2) ov')
                (span 1 4)).
Proof.
  apply (Add_covers_into_first_overlap (span 1 4) (span 0 2)
           (mkRegionSet [span 0 2; span 3 5] ∅) [] 0).
  - lia.
  - reflexivity.
  - reflexivity.
  - intros j y Hj. simpl in Hj. lia.
Defined.

Lemma Add_then_Contains_witness :
  ∃ r' tr',
    Add (span 1 4) (mkRegionSet [span 0 2; span 6 8] (∅ : gmap string nat)) []
    = Returns (r', tr')
    ∧ Contains r' (span 1 4) = true.
Proof.
  apply (Add_then_Contains (span 1 4)
           (mkRegionSet [span 0 2; span 6 8] ∅) []).
  - apply Interval_Cover_contains.
  - apply Interval_Contains_Begin.
  - apply Interval_Contains_End.
Defined.

Lemma AddAll_appends_when_apart_witness :
  AddAll [span 10 12; span 20 22]
    (mkRegionSet [span 0 2] (∅ : gmap string nat)) []
  = Returns (mkRegionSet [span 0 2; span 10 12; span 20 22] ∅, []).
Proof.
  rewrite (AddAll_appends_when_apart [span 10 12; span 20 22]
             (mkRegionSet [span 0 2] ∅) []).
  - vm_compute. reflexivity.
  - intros j k x y Hjk Hx Hy.
    destruct j as [|[|j]], k as [|[|k]]; simplify_eq/=; (lia || reflexivity).
  - intros x y Hy Hx. simpl in Hx.
    apply list_elem_of_singleton in Hx. subst x.
    apply elem_of_cons in Hy as [->|Hy]; [reflexivity|].
    apply list_elem_of_singleton in Hy. subst y. reflexivity.
Defined.

Lemma Adjust_when_apart_witness :
  stored (Adjust 0 5 (mkRegionSet [span 0 2; span 6 8]
                        (∅ : gmap string nat)) [])
  = Returns [span 5 7; span 11 13].
Proof.
  rewrite (Adjust_when_apart 0 5 (mkRegionSet [span 0 2; span 6 8] ∅) []).
  - reflexivity.
  - intros j k x y Hjk Hx Hy.
    destruct j as [|[|j]], k as [|[|k]]; simplify_eq/=; (lia || reflexivity).
Defined.

Lemma stored_counts_witness :
  ∃ r' tr', AddAll [span 1 2] new_set [] = Returns (r', tr') ∧ 1 ≤ Len r'.
Proof.
  destruct (proj1 (proj2 (stored_counts new_set [])) [span 1 2])
    as (r' & tr' & Hrun & _ & Hge).
  exists r', tr'. split; [exact Hrun|]. by apply Hge.
Defined.

Lemma callbacks_follow_registry_witness :
  ClearOnChange "cursor" new_set = new_set.
Proof.
  apply (proj1 (proj2 (proj2
           (callbacks_follow_registry "cursor" 7%nat (span 0 1) new_set [])))).
  apply lookup_empty.
Defined.

Lemma Cut_when_remainders_apart_witness :
  Subtract (span 4 5) (mkRegionSet [span 1 8] (∅ : gmap string nat)) []
  = Returns (mkRegionSet [span 1 4; span 5 8] ∅, []).
Proof.
  assert (Hapart : no_later_overlap
            (remainders (span 4 5)
               (regions (mkRegionSet [span 1 8] (∅ : gmap string nat))))).
  { change (remainders (span 4 5)
              (regions (mkRegionSet [span 1 8] (∅ : gmap string nat))))
      with [span 1 4; span 5 8].
    intros j k x y Hjk Hx Hy.
    destruct j as [|[|j]], k as [|[|k]]; simplify_eq/=;
      (lia || reflexivity). }
  rewrite (proj2 (proj1 (Cut_when_remainders_apart (span 4 5)
                           (mkRegionSet [span 1 8] ∅) []) Hapart)).
  vm_compute. reflexivity.
Defined.

End MoreScenarios.
